(** * The monitoring database manager of parsl (parsl/monitoring/db_manager.py)

    A shallow embedding of [Database] and [DatabaseManager]: messages are
    Python dictionaries (finite maps from column names to values), the
    relational store is a session with a working copy and a committed copy
    of six tables, and the coordinator is a program in a state-and-exception
    monad over the manager's fields. *)

From Stdlib Require Import ZArith Lia.
From stdpp Require Import base option list gmap strings pretty countable fin_maps.

Open Scope string_scope.
Open Scope Z_scope.
Open Scope list_scope.

(** ** Values carried by messages *)

(** The Python values that monitoring messages hold.  A [datetime] is kept
    as its number of microseconds since the epoch; a float is kept as the
    fraction it stands for (only [timedelta.total_seconds] produces one
    here, as microseconds over [10^6]). *)
Inductive value : Type :=
  | VNone
  | VBool (b : bool)
  | VInt (z : Z)
  | VFloat (num : Z) (den : positive)
  | VStr (s : string)
  | VTime (us : Z).

Global Instance value_eq_dec : EqDecision value.
Proof. solve_decision. Defined.

Definition value_code (v : value) : unit + bool + Z + (Z * positive) + string + Z :=
  match v with
  | VNone => inl (inl (inl (inl (inl tt))))
  | VBool b => inl (inl (inl (inl (inr b))))
  | VInt z => inl (inl (inl (inr z)))
  | VFloat n d => inl (inl (inr (n, d)))
  | VStr s => inl (inr s)
  | VTime t => inr t
  end.

Definition value_decode (c : unit + bool + Z + (Z * positive) + string + Z) : value :=
  match c with
  | inl (inl (inl (inl (inl _)))) => VNone
  | inl (inl (inl (inl (inr b)))) => VBool b
  | inl (inl (inl (inr z))) => VInt z
  | inl (inl (inr (n, d))) => VFloat n d
  | inl (inr s) => VStr s
  | inr t => VTime t
  end.

Global Instance value_countable : Countable value.
Proof. apply (inj_countable' value_code value_decode). by intros []. Defined.

(** [bool(v)]: Python truthiness. *)
Definition truthy (v : value) : bool :=
  match v with
  | VNone => false
  | VBool b => b
  | VInt z => negb (Z.eqb z 0)
  | VFloat n _ => negb (Z.eqb n 0)
  | VStr s => negb (String.eqb s "")
  | VTime _ => true
  end.

(** [str(v)].  Integers, strings, booleans and [None] print as in Python;
    the rendering of floats and datetimes is kept abstract (a tagged
    decimal), since no message key is built from them. *)
Definition str (v : value) : string :=
  match v with
  | VNone => "None"
  | VBool true => "True"
  | VBool false => "False"
  | VInt z => pretty z
  | VFloat n d => pretty n +:+ "/" +:+ pretty (Zpos d)
  | VStr s => s
  | VTime t => "datetime:" +:+ pretty t
  end.

(** A message is a dictionary from keys to values. *)
Abbreviation msg := (gmap string value).

(** [msg.get(key, None)] *)
Definition get (m : msg) (key : string) : value := default VNone (m !! key).

(** ** Schema: the six declarative tables *)

Inductive table : Type := WORKFLOW | TASK | TRY | STATUS | RESOURCE | NODE.

Global Instance table_eq_dec : EqDecision table.
Proof. solve_decision. Defined.

Definition table_name (t : table) : string :=
  match t with
  | WORKFLOW => "workflow" | TASK => "task" | TRY => "try"
  | STATUS => "status" | RESOURCE => "resource" | NODE => "node"
  end.

Record column : Type := Column { col_name : string; nullable : bool }.

(** The [Column] declarations of each table class, in declaration order. *)
Definition columns_of (t : table) : list column :=
  match t with
  | WORKFLOW =>
      [ Column "run_id" false; Column "workflow_name" true;
        Column "workflow_version" true; Column "time_began" false;
        Column "time_completed" true; Column "host" false;
        Column "user" false; Column "rundir" false;
        Column "tasks_failed_count" false; Column "tasks_completed_count" false ]
  | STATUS =>
      [ Column "task_id" false; Column "task_status_name" false;
        Column "timestamp" false; Column "run_id" false; Column "try_id" false ]
  | TASK =>
      [ Column "task_id" false; Column "run_id" false;
        Column "task_depends" true; Column "task_func_name" false;
        Column "task_memoize" false; Column "task_hashsum" true;
        Column "task_inputs" true; Column "task_outputs" true;
        Column "task_stdin" true; Column "task_stdout" true;
        Column "task_stderr" true; Column "task_time_returned" true;
        Column "task_fail_count" false ]
  | TRY =>
      [ Column "try_id" false; Column "task_id" false; Column "run_id" false;
        Column "hostname" true; Column "task_executor" false;
        Column "task_time_submitted" true; Column "task_time_running" true;
        Column "task_try_time_returned" true; Column "task_fail_history" true ]
  | NODE =>
      [ Column "id" false; Column "run_id" false; Column "hostname" false;
        Column "cpu_count" false; Column "total_memory" false;
        Column "active" false; Column "worker_count" false;
        Column "python_v" false; Column "reg_time" false ]
  | RESOURCE =>
      [ Column "try_id" false; Column "task_id" false; Column "run_id" false;
        Column "timestamp" false; Column "resource_monitoring_interval" true;
        Column "psutil_process_pid" true; Column "psutil_process_cpu_percent" true;
        Column "psutil_process_memory_percent" true;
        Column "psutil_process_children_count" true;
        Column "psutil_process_time_user" true;
        Column "psutil_process_time_system" true;
        Column "psutil_process_memory_virtual" true;
        Column "psutil_process_memory_resident" true;
        Column "psutil_process_disk_read" true;
        Column "psutil_process_disk_write" true;
        Column "psutil_process_status" true ]
  end.

(** [PrimaryKeyConstraint(...)] / [primary_key=True] of each table. *)
Definition primary_key (t : table) : list string :=
  match t with
  | WORKFLOW => ["run_id"]
  | STATUS => ["task_id"; "run_id"; "task_status_name"; "timestamp"]
  | TASK => ["task_id"; "run_id"]
  | TRY => ["try_id"; "task_id"; "run_id"]
  | NODE => ["id"]
  | RESOURCE => ["try_id"; "task_id"; "run_id"; "timestamp"]
  end.

(** The one [autoincrement=True] column. *)
Definition autoincrement (t : table) : option string :=
  match t with NODE => Some "id" | _ => None end.

(** [table.c.keys()] *)
Definition keys (t : table) : list string := col_name <$> columns_of t.

(** ** Database._generate_mappings *)

(** The inner loop: [m = {}; for column in columns: m[column] = msg.get(column, None)]. *)
Definition generate_mapping (columns : list string) (m : msg) : msg :=
  foldl (fun acc column => <[column := get m column]> acc) ∅ columns.

(** [columns=None] stands for every column of the table. *)
Definition _generate_mappings (t : table) (columns : option (list string))
    (messages : list msg) : list msg :=
  let columns := match columns with None => keys t | Some cs => cs end in
  generate_mapping columns <$> messages.

(** ** Exceptions and the manager monad *)

(** The two classes the handlers of the source tell apart:
    [except KeyboardInterrupt] and [except Exception]. *)
Inductive exn : Type :=
  | KeyboardInterrupt
  | Exception (what : string).

Inductive outcome (A : Type) : Type :=
  | Ok (a : A)
  | Raise (e : exn).
Arguments Ok {A} a.
Arguments Raise {A} e.

(** The session of the store, as [Database] uses it:
    [session.bulk_insert_mappings], [session.bulk_update_mappings],
    [session.commit] and [session.rollback].  Each call leaves a new
    session state and either returns or raises. *)
Class Session (S : Type) : Type := {
  bulk_insert_mappings : table -> list msg -> S -> outcome unit * S;
  bulk_update_mappings : table -> list msg -> S -> outcome unit * S;
  commit : S -> outcome unit * S;
  session_rollback : S -> outcome unit * S
}.

(** What the manager does that can be observed from outside: the calls it
    makes on [self.db] and the lines it logs at error level
    ([logger.exception] logs the exception being handled with its text). *)
Inductive event : Type :=
  | CallInsert (t : table) (messages : list msg)
  | CallUpdate (t : table) (columns : list string) (messages : list msg)
  | CallRollback
  | LogException (text : string) (e : exn)
  | LogError (text : string).

(** A cut-off that [close] can lift to [float('inf')]. *)
Inductive ext (A : Type) : Type :=
  | Finite (a : A)
  | Inf.
Arguments Finite {A} a.
Arguments Inf {A}.

(** [MessageType] tags of the priority stream.

    Modelled from the spec: the enumeration is declared in
    parsl/monitoring/message_type.py, which is not part of the sources;
    the priority queue carries [WORKFLOW_INFO] and [TASK_INFO], and any other
    tag is a protocol violation. *)
Inductive MessageType : Type :=
  | TASK_INFO
  | WORKFLOW_INFO
  | OTHER_INFO (tag : Z).

(** [States.running.name].

    Modelled from the spec: [States] is declared in parsl/dataflow/states.py,
    which is not part of the sources; a promoted first resource message gets
    [task_status_name := "running"]. *)
Definition States_running_name : string := "running".

(** The fields of a [DatabaseManager], the session of its [Database], and
    the events so far. *)
Record manager (S : Type) : Type := Manager {
  db : S;
  events : list event;
  workflow_end : bool;
  workflow_start_message : option msg;
  batching_interval : ext Z;
  batching_threshold : ext nat;
  _kill_event : bool;
  pending_priority_queue : list (MessageType * msg);
  pending_node_queue : list msg;
  pending_resource_queue : list msg
}.
Arguments Manager {S}.
Arguments db {S}.
Arguments events {S}.
Arguments workflow_end {S}.
Arguments workflow_start_message {S}.
Arguments batching_interval {S}.
Arguments batching_threshold {S}.
Arguments _kill_event {S}.
Arguments pending_priority_queue {S}.
Arguments pending_node_queue {S}.
Arguments pending_resource_queue {S}.

Definition M (S A : Type) : Type := manager S -> outcome A * manager S.

Definition ret {S A} (a : A) : M S A := fun w => (Ok a, w).

Definition bind {S A B} (c : M S A) (k : A -> M S B) : M S B :=
  fun w =>
    match c w with
    | (Ok a, w') => k a w'
    | (Raise e, w') => (Raise e, w')
    end.

Definition raise {S A} (e : exn) : M S A := fun w => (Raise e, w).

Declare Scope manager_scope.
Delimit Scope manager_scope with M.
Notation "x <- c ;; k" := (bind c (fun x => k))
  (at level 20, c at level 99, k at level 200, only parsing) : manager_scope.
Notation "c ;; k" := (bind c (fun _ => k))
  (at level 100, k at level 200, right associativity, only parsing) : manager_scope.
Open Scope manager_scope.

(** [try: body / except KeyboardInterrupt: h1 / except Exception: h2] *)
Definition try_except {S A} (body h_interrupt : M S A) (h_exception : exn -> M S A)
    : M S A :=
  fun w =>
    match body w with
    | (Ok a, w') => (Ok a, w')
    | (Raise KeyboardInterrupt, w') => h_interrupt w'
    | (Raise (Exception what), w') => h_exception (Exception what) w'
    end.

(** [try: body / except Exception: h]; a [KeyboardInterrupt] passes through. *)
Definition try_except_Exception {S A} (body : M S A) (h_exception : exn -> M S A)
    : M S A :=
  try_except body (raise KeyboardInterrupt) h_exception.

Definition add_event {S} (ev : event) (w : manager S) : manager S :=
  Manager w.(db) (w.(events) ++ [ev]) w.(workflow_end) w.(workflow_start_message)
    w.(batching_interval) w.(batching_threshold) w.(_kill_event)
    w.(pending_priority_queue) w.(pending_node_queue) w.(pending_resource_queue).

Definition emit {S} (ev : event) : M S unit :=
  fun w => (Ok tt, add_event ev w).

Definition set_db {S} (s : S) (w : manager S) : manager S :=
  Manager s w.(events) w.(workflow_end) w.(workflow_start_message)
    w.(batching_interval) w.(batching_threshold) w.(_kill_event)
    w.(pending_priority_queue) w.(pending_node_queue) w.(pending_resource_queue).

(** Run a session call on the manager's [db]. *)
Definition on_session {S} (f : S -> outcome unit * S) : M S unit :=
  fun w => let '(r, s) := f w.(db) in (r, set_db s w).

Definition set_workflow_start_message {S} (m : msg) : M S unit :=
  fun w => (Ok tt, Manager w.(db) w.(events) w.(workflow_end) (Some m)
                     w.(batching_interval) w.(batching_threshold) w.(_kill_event)
                     w.(pending_priority_queue) w.(pending_node_queue)
                     w.(pending_resource_queue)).

Definition set_workflow_end {S} (b : bool) : M S unit :=
  fun w => (Ok tt, Manager w.(db) w.(events) b w.(workflow_start_message)
                     w.(batching_interval) w.(batching_threshold) w.(_kill_event)
                     w.(pending_priority_queue) w.(pending_node_queue)
                     w.(pending_resource_queue)).

(** [msg[key]]: a missing key raises [KeyError]. *)
Definition getitem {S} (m : msg) (key : string) : M S value :=
  match m !! key with
  | Some v => ret v
  | None => raise (Exception ("KeyError: " +:+ key))
  end.

(** ** Database.insert, Database.update, Database.rollback *)

Section Database.
Context {S : Type} `{Session S}.

Definition Database_update (t : table) (columns : list string)
    (messages : list msg) : M S unit :=
  emit (CallUpdate t columns messages) ;;
  let mappings := _generate_mappings t (Some columns) messages in
  on_session (bulk_update_mappings t mappings) ;;
  on_session commit.

Definition Database_insert (t : table) (messages : list msg) : M S unit :=
  emit (CallInsert t messages) ;;
  let mappings := _generate_mappings t None messages in
  on_session (bulk_insert_mappings t mappings) ;;
  on_session commit.

Definition Database_rollback : M S unit :=
  emit CallRollback ;;
  on_session session_rollback.

(** ** DatabaseManager._update and DatabaseManager._insert *)

Definition attempt_rollback : M S unit :=
  try_except_Exception Database_rollback
    (fun e => emit (LogException "Rollback failed" e)).

Definition _update (t : table) (columns : list string) (messages : list msg)
    : M S unit :=
  try_except (Database_update t columns messages)
    (emit (LogException
             ("KeyboardInterrupt when trying to update Table " +:+ table_name t)
             KeyboardInterrupt) ;;
     attempt_rollback ;;
     raise KeyboardInterrupt)
    (fun e =>
       emit (LogException
               ("Got exception when trying to update table " +:+ table_name t) e) ;;
       attempt_rollback).

Definition _insert (t : table) (messages : list msg) : M S unit :=
  try_except (Database_insert t messages)
    (emit (LogException
             ("KeyboardInterrupt when trying to update Table " +:+ table_name t)
             KeyboardInterrupt) ;;
     attempt_rollback ;;
     raise KeyboardInterrupt)
    (fun e =>
       emit (LogException
               ("Got exception when trying to insert to table " +:+ table_name t) e) ;;
       attempt_rollback).

End Database.

(** ** The coordinator loop of DatabaseManager.start *)

(** The three reconciliation structures local to [start]. *)
Record reconciliation : Type := Reconciliation {
  inserted_tasks : gset value;
  inserted_tries : gset string;
  deferred_resource_messages : gmap string msg
}.

Definition initial_reconciliation : reconciliation :=
  Reconciliation ∅ ∅ ∅.

(** The six lists a priority batch is sorted into. *)
Record task_lists : Type := TaskLists {
  task_info_update_messages : list msg;
  task_info_insert_messages : list msg;
  task_info_all_messages : list msg;
  try_update_messages : list msg;
  try_insert_messages : list msg;
  try_all_messages : list msg
}.

Definition empty_task_lists : task_lists := TaskLists [] [] [] [] [] [].

(** [str(msg['task_id']) + "." + str(msg['try_id'])] *)
Definition task_try_id_of (task_id try_id : value) : string :=
  str task_id +:+ "." +:+ str try_id.

(** State of the [for msg_type, msg in priority_messages] loop: the
    reconciliation structures, the six lists, and
    [reprocessable_first_resource_messages]. *)
Definition priority_state : Type := reconciliation * task_lists * list msg.

Section Coordinator.
Context {S : Type} `{Session S}.

(** The [TASK_INFO] branch, which makes no call on the store. *)
Definition sort_task_info (task_id try_id : value) (m : msg)
    (st : priority_state) : priority_state :=
  let '(r, l, reprocessable) := st in
  let task_try_id := task_try_id_of task_id try_id in
  let all := l.(task_info_all_messages) ++ [m] in
  let '(tasks, t_upd, t_ins) :=
    if decide (task_id ∈ r.(inserted_tasks))
    then (r.(inserted_tasks), l.(task_info_update_messages) ++ [m],
          l.(task_info_insert_messages))
    else ({[task_id]} ∪ r.(inserted_tasks), l.(task_info_update_messages),
          l.(task_info_insert_messages) ++ [m]) in
  let try_all := l.(try_all_messages) ++ [m] in
  if decide (task_try_id ∈ r.(inserted_tries))
  then (Reconciliation tasks r.(inserted_tries) r.(deferred_resource_messages),
        TaskLists t_upd t_ins all (l.(try_update_messages) ++ [m])
          l.(try_insert_messages) try_all,
        reprocessable)
  else
    let tries := {[task_try_id]} ∪ r.(inserted_tries) in
    let lists := TaskLists t_upd t_ins all l.(try_update_messages)
                   (l.(try_insert_messages) ++ [m]) try_all in
    match r.(deferred_resource_messages) !! task_try_id with
    | Some left_message =>
        (Reconciliation tasks tries
           (delete task_try_id r.(deferred_resource_messages)),
         lists, reprocessable ++ [left_message])
    | None =>
        (Reconciliation tasks tries r.(deferred_resource_messages),
         lists, reprocessable)
    end.

(** One turn of [for msg_type, msg in priority_messages]. *)
Definition priority_step (st : priority_state) (pm : MessageType * msg)
    : M S priority_state :=
  let '(msg_type, m) := pm in
  match msg_type with
  | WORKFLOW_INFO =>
      if decide (is_Some (m !! "python_version"))
      then
        _insert WORKFLOW [m] ;;
        set_workflow_start_message m ;;
        ret st
      else
        _update WORKFLOW
          ["run_id"; "tasks_failed_count"; "tasks_completed_count"; "time_completed"]
          [m] ;;
        set_workflow_end true ;;
        ret st
  | TASK_INFO =>
      task_id <- getitem m "task_id" ;;
      try_id <- getitem m "try_id" ;;
      ret (sort_task_info task_id try_id m st)
  | OTHER_INFO _ =>
      raise (Exception "RuntimeError: Unexpected message type received on priority queue")
  end.

Fixpoint priority_loop (st : priority_state)
    (priority_messages : list (MessageType * msg)) : M S priority_state :=
  match priority_messages with
  | [] => ret st
  | pm :: rest => st' <- priority_step st pm ;; priority_loop st' rest
  end.

(** [if messages: body] *)
Definition when_nonempty {A} (l : list A) (body : M S unit) : M S unit :=
  match l with [] => ret tt | _ :: _ => body end.

(** The DML issued after a priority batch has been sorted. *)
Definition apply_task_lists (l : task_lists) : M S unit :=
  _update WORKFLOW ["run_id"; "tasks_failed_count"; "tasks_completed_count"]
    l.(task_info_all_messages) ;;
  when_nonempty l.(task_info_insert_messages)
    (_insert TASK l.(task_info_insert_messages)) ;;
  when_nonempty l.(task_info_update_messages)
    (_update TASK
       ["task_time_submitted"; "task_time_returned"; "run_id"; "task_id";
        "task_fail_count"]
       l.(task_info_update_messages)) ;;
  _insert STATUS l.(task_info_all_messages) ;;
  when_nonempty l.(try_insert_messages)
    (_insert TRY l.(try_insert_messages)) ;;
  when_nonempty l.(try_update_messages)
    (_update TRY
       ["task_time_returned"; "run_id"; "task_id"; "try_id";
        "task_fail_history"; "task_time_submitted"; "task_try_time_returned"]
       l.(try_update_messages)).

(** The priority phase of one iteration; [reprocessable] starts empty. *)
Definition priority_phase (r : reconciliation)
    (priority_messages : list (MessageType * msg))
    : M S (reconciliation * list msg) :=
  match priority_messages with
  | [] => ret (r, [])
  | _ :: _ =>
      st <- priority_loop (r, empty_task_lists, []) priority_messages ;;
      let '(r', l, reprocessable) := st in
      apply_task_lists l ;;
      ret (r', reprocessable)
  end.

Definition node_phase (node_info_messages : list msg) : M S unit :=
  when_nonempty node_info_messages (_insert NODE node_info_messages).

(** One turn of [for msg in resource_messages]. *)
Definition resource_step (st : reconciliation * list msg) (m : msg)
    : M S (reconciliation * list msg) :=
  let '(r, reprocessable) := st in
  task_id <- getitem m "task_id" ;;
  try_id <- getitem m "try_id" ;;
  let task_try_id := task_try_id_of task_id try_id in
  first_msg <- getitem m "first_msg" ;;
  if truthy first_msg then
    let m1 := <["task_status_name" := VStr States_running_name]> m in
    timestamp <- getitem m1 "timestamp" ;;
    let m2 := <["task_time_running" := timestamp]> m1 in
    if decide (task_try_id ∈ r.(inserted_tries))
    then ret (r, reprocessable ++ [m2])
    else
      (if decide (is_Some (r.(deferred_resource_messages) !! task_try_id))
       then emit (LogError
                    ("Task " +:+ str task_id +:+
                     " already has a deferred resource message. Discarding previous message."))
       else ret tt) ;;
      ret (Reconciliation r.(inserted_tasks) r.(inserted_tries)
             (<[task_try_id := m2]> r.(deferred_resource_messages)),
           reprocessable)
  else ret st.

Fixpoint resource_loop (st : reconciliation * list msg)
    (resource_messages : list msg) : M S (reconciliation * list msg) :=
  match resource_messages with
  | [] => ret st
  | m :: rest => st' <- resource_step st m ;; resource_loop st' rest
  end.

Definition resource_phase (st : reconciliation * list msg)
    (resource_messages : list msg) : M S (reconciliation * list msg) :=
  match resource_messages with
  | [] => ret st
  | _ :: _ =>
      _insert RESOURCE resource_messages ;;
      resource_loop st resource_messages
  end.

Definition reprocess_phase (reprocessable : list msg) : M S unit :=
  when_nonempty reprocessable
    (_insert STATUS reprocessable ;;
     _update TRY ["task_time_running"; "run_id"; "task_id"; "try_id"; "hostname"]
       reprocessable).

(** The three batches one iteration of the loop gets from
    [_get_messages_in_batch]. *)
Record batch : Type := Batch {
  priority_messages : list (MessageType * msg);
  node_info_messages : list msg;
  resource_messages : list msg
}.

(** The body of the [while] loop, for given batches. *)
Definition iteration (r : reconciliation) (b : batch) : M S reconciliation :=
  st <- priority_phase r b.(priority_messages) ;;
  node_phase b.(node_info_messages) ;;
  st' <- resource_phase st b.(resource_messages) ;;
  let '(r', reprocessable) := st' in
  reprocess_phase reprocessable ;;
  ret r'.

(** The loop over a finite trace of batches. *)
Fixpoint run_trace (r : reconciliation) (trace : list batch) : M S reconciliation :=
  match trace with
  | [] => ret r
  | b :: rest => r' <- iteration r b ;; run_trace r' rest
  end.

End Coordinator.

(** ** DatabaseManager._get_messages_in_batch *)

Section Batcher.
Context {A : Type}.

(** [start] is the reading of [time.time()] on entry; [clock i] is the
    reading at the head of the turn that finds [i] messages collected, and
    [poll i] is what [msg_queue.get(timeout=0.1)] gives in that turn,
    [None] standing for [queue.Empty]. *)
Variable start : Z.
Variable clock : nat -> Z.
Variable poll : nat -> option A.

(** [time.time() - start >= interval] *)
Definition interval_reached (elapsed : Z) (interval : ext Z) : bool :=
  match interval with Finite i => Z.leb i elapsed | Inf => false end.

(** [len(messages) >= threshold] *)
Definition threshold_reached (n : nat) (threshold : ext nat) : bool :=
  match threshold with Finite k => Nat.leb k n | Inf => false end.

(** The [while True] loop; it gives [None] when [fuel] turns were not
    enough to leave it. *)
Fixpoint batch_loop (fuel : nat) (interval : ext Z) (threshold : ext nat)
    (messages : list A) : option (list A) :=
  match fuel with
  | O => None
  | Datatypes.S fuel' =>
      let i := length messages in
      if interval_reached (clock i - start) interval
         || threshold_reached i threshold
      then Some messages
      else
        match poll i with
        | None => Some messages
        | Some x => batch_loop fuel' interval threshold (messages ++ [x])
        end
  end.

Definition _get_messages_in_batch (fuel : nat) (interval : ext Z)
    (threshold : ext nat) : option (list A) :=
  batch_loop fuel interval threshold [].

End Batcher.

(** A batch drawn from a queue that holds [q] and gets no new item during
    the call: the batch and what stays in the queue. *)
Definition drain {A} (start : Z) (clock : nat -> Z) (q : list A)
    (interval : ext Z) (threshold : ext nat) : list A * list A :=
  match _get_messages_in_batch start clock (fun i => q !! i)
          (Datatypes.S (length q)) interval threshold with
  | Some messages => (messages, drop (length messages) q)
  | None => ([], q)
  end.

(** ** DatabaseManager.close *)






Definition with_kill_event {S} (b : bool) (w : manager S) : manager S :=
  Manager w.(db) w.(events) w.(workflow_end) w.(workflow_start_message)
    w.(batching_interval) w.(batching_threshold) b
    w.(pending_priority_queue) w.(pending_node_queue) w.(pending_resource_queue).


Section Lifecycle.
Context {S : Type} `{Session S}.


(** ** The [while] loop of DatabaseManager.start *)

(** The loop condition; [priority_qsize] and [resource_qsize] are the
    readings of [priority_queue.qsize()] and [resource_queue.qsize()]. *)
Definition loop_condition (w : manager S) (priority_qsize resource_qsize : nat)
    : bool :=
  negb w.(_kill_event)
  || negb (Nat.eqb (length w.(pending_priority_queue)) 0)
  || negb (Nat.eqb (length w.(pending_resource_queue)) 0)
  || negb (Nat.eqb priority_qsize 0)
  || negb (Nat.eqb resource_qsize 0).

(** What the loop reads from outside the manager: the sizes of the two
    external queues it looks at, at the head of turn [n], and the clock
    readings of the three batching calls of turn [n]. *)
Record surroundings : Type := Surroundings {
  external_qsize : nat -> nat * nat;
  batch_start : nat -> nat -> Z;
  batch_clock : nat -> nat -> nat -> Z
}.

Definition take_priority (env : surroundings) (n : nat)
    : M S (list (MessageType * msg)) :=
  fun w =>
    let '(messages, rest) :=
      drain (batch_start env n 0) (batch_clock env n 0)
        w.(pending_priority_queue) w.(batching_interval) w.(batching_threshold) in
    (Ok messages,
     Manager w.(db) w.(events) w.(workflow_end) w.(workflow_start_message)
       w.(batching_interval) w.(batching_threshold) w.(_kill_event)
       rest w.(pending_node_queue) w.(pending_resource_queue)).

Definition take_node (env : surroundings) (n : nat) : M S (list msg) :=
  fun w =>
    let '(messages, rest) :=
      drain (batch_start env n 1) (batch_clock env n 1)
        w.(pending_node_queue) w.(batching_interval) w.(batching_threshold) in
    (Ok messages,
     Manager w.(db) w.(events) w.(workflow_end) w.(workflow_start_message)
       w.(batching_interval) w.(batching_threshold) w.(_kill_event)
       w.(pending_priority_queue) rest w.(pending_resource_queue)).

Definition take_resource (env : surroundings) (n : nat) : M S (list msg) :=
  fun w =>
    let '(messages, rest) :=
      drain (batch_start env n 2) (batch_clock env n 2)
        w.(pending_resource_queue) w.(batching_interval) w.(batching_threshold) in
    (Ok messages,
     Manager w.(db) w.(events) w.(workflow_end) w.(workflow_start_message)
       w.(batching_interval) w.(batching_threshold) w.(_kill_event)
       w.(pending_priority_queue) w.(pending_node_queue) rest).

(** One turn of the loop, with the batches taken from the pending queues. *)
Definition turn (env : surroundings) (n : nat) (r : reconciliation)
    : M S reconciliation :=
  priority_messages <- take_priority env n ;;
  st <- priority_phase r priority_messages ;;
  node_info_messages <- take_node env n ;;
  node_phase node_info_messages ;;
  resource_messages <- take_resource env n ;;
  st' <- resource_phase st resource_messages ;;
  let '(r', reprocessable) := st' in
  reprocess_phase reprocessable ;;
  ret r'.

(** The loop from turn [n] on; [None] when [fuel] turns do not end it. *)
Fixpoint start_loop (env : surroundings) (fuel n : nat) (r : reconciliation)
    (w : manager S) : option (outcome reconciliation * manager S) :=
  let '(priority_qsize, resource_qsize) := external_qsize env n in
  if loop_condition w priority_qsize resource_qsize then
    match fuel with
    | O => None
    | Datatypes.S fuel' =>
        match turn env n r w with
        | (Ok r', w') => start_loop env fuel' (Datatypes.S n) r' w'
        | (Raise e, w') => Some (Raise e, w')
        end
    end
  else Some (Ok r, w).

(** [start] makes a fresh, unset [_kill_event] and enters the loop with
    empty reconciliation structures. *)
Definition start (env : surroundings) (fuel : nat) (w : manager S)
    : option (outcome reconciliation * manager S) :=
  start_loop env fuel 0 initial_reconciliation (with_kill_event false w).

End Lifecycle.

(** ** The relational store

    The session behind [Database]: SQL DML over the six tables with
    primary-key and NOT NULL enforcement and transactions, as the schema
    above declares them.  Foreign keys are declared column by column in the
    schema and are not enforced by the default SQLite store; column types
    are not enforced either. *)

Record tables : Type := Tables {
  workflow_rows : list msg;
  task_rows : list msg;
  try_rows : list msg;
  status_rows : list msg;
  resource_rows : list msg;
  node_rows : list msg
}.

Definition empty_tables : tables := Tables [] [] [] [] [] [].

Definition rows (t : table) (d : tables) : list msg :=
  match t with
  | WORKFLOW => d.(workflow_rows) | TASK => d.(task_rows) | TRY => d.(try_rows)
  | STATUS => d.(status_rows) | RESOURCE => d.(resource_rows) | NODE => d.(node_rows)
  end.

Definition set_rows (t : table) (l : list msg) (d : tables) : tables :=
  match t with
  | WORKFLOW => Tables l d.(task_rows) d.(try_rows) d.(status_rows) d.(resource_rows) d.(node_rows)
  | TASK => Tables d.(workflow_rows) l d.(try_rows) d.(status_rows) d.(resource_rows) d.(node_rows)
  | TRY => Tables d.(workflow_rows) d.(task_rows) l d.(status_rows) d.(resource_rows) d.(node_rows)
  | STATUS => Tables d.(workflow_rows) d.(task_rows) d.(try_rows) l d.(resource_rows) d.(node_rows)
  | RESOURCE => Tables d.(workflow_rows) d.(task_rows) d.(try_rows) d.(status_rows) l d.(node_rows)
  | NODE => Tables d.(workflow_rows) d.(task_rows) d.(try_rows) d.(status_rows) d.(resource_rows) l
  end.

(** A session: the committed tables, the working copy of the open
    transaction, and the store's policy for an UPDATE that matches no row
    (raise [StaleDataError], or pass over it). *)
Record store : Type := Store {
  committed : tables;
  working : tables;
  stale_is_error : bool
}.

Definition empty_store (stale : bool) : store :=
  Store empty_tables empty_tables stale.

(** The row a mapping stands for: every column of the table, NULL where
    the mapping has nothing. *)
Definition row_of (t : table) (mapping : msg) : msg :=
  generate_mapping (keys t) mapping.

(** The values of the primary-key columns. *)
Definition pk_of (t : table) (row : msg) : list value :=
  get row <$> primary_key t.

Definition not_null_ok (t : table) (row : msg) : bool :=
  forallb (fun c => nullable c || negb (bool_decide (get row (col_name c) = VNone)))
    (columns_of t).

(** The next value of an autoincrement column: one more than the largest
    integer in it. *)
Definition next_rowid (c : string) (l : list msg) : Z :=
  1 + foldr (fun row acc => match get row c with VInt z => Z.max z acc | _ => acc end) 0 l.

Definition fill_autoincrement (t : table) (l : list msg) (row : msg) : msg :=
  match autoincrement t with
  | Some c =>
      if bool_decide (get row c = VNone) then <[c := VInt (next_rowid c l)]> row else row
  | None => row
  end.

(** INSERT of the mappings, one after the other, into the working copy. *)
Fixpoint store_insert (t : table) (mappings : list msg) (d : tables)
    : outcome unit * tables :=
  match mappings with
  | [] => (Ok tt, d)
  | mapping :: rest =>
      let row := fill_autoincrement t (rows t d) (row_of t mapping) in
      if negb (not_null_ok t row)
      then (Raise (Exception "IntegrityError: NOT NULL constraint failed"), d)
      else if bool_decide (pk_of t row ∈ pk_of t <$> rows t d)
      then (Raise (Exception "IntegrityError: UNIQUE constraint failed"), d)
      else store_insert t rest (set_rows t (rows t d ++ [row]) d)
  end.

(** SET of the columns of the table that the mapping names, the key
    columns apart; keys of the mapping that are no column are passed over. *)
Definition apply_update (t : table) (mapping : msg) (row : msg) : msg :=
  foldl (fun acc c =>
           if bool_decide (is_Some (mapping !! c)) && negb (bool_decide (c ∈ primary_key t))
           then <[c := get mapping c]> acc else acc)
    row (keys t).

(** The NOT NULL check of an UPDATE: no column that is SET gets NULL
    unless it is nullable. *)
Definition set_ok (t : table) (mapping : msg) : bool :=
  forallb (fun c =>
             nullable c
             || negb (bool_decide (is_Some (mapping !! col_name c))
                      && negb (bool_decide (col_name c ∈ primary_key t))
                      && bool_decide (get mapping (col_name c) = VNone)))
    (columns_of t).

(** UPDATE by primary key, one mapping after the other, on the working copy. *)
Fixpoint store_update (stale : bool) (t : table) (mappings : list msg) (d : tables)
    : outcome unit * tables :=
  match mappings with
  | [] => (Ok tt, d)
  | mapping :: rest =>
      let key := pk_of t mapping in
      if bool_decide (VNone ∈ key)
      then (Raise (Exception "FlushError: NULL for primary key value"), d)
      else if bool_decide (key ∈ pk_of t <$> rows t d) then
        if set_ok t mapping
        then
          store_update stale t rest
            (set_rows t
               ((fun row => if decide (pk_of t row = key)
                            then apply_update t mapping row else row) <$> rows t d)
               d)
        else (Raise (Exception "IntegrityError: NOT NULL constraint failed"), d)
      else if stale
      then (Raise (Exception "StaleDataError: UPDATE matched no row"), d)
      else store_update stale t rest d
  end.

Global Instance store_session : Session store := {
  bulk_insert_mappings t mappings s :=
    let '(r, d) := store_insert t mappings s.(working) in
    (r, Store s.(committed) d s.(stale_is_error));
  bulk_update_mappings t mappings s :=
    let '(r, d) := store_update s.(stale_is_error) t mappings s.(working) in
    (r, Store s.(committed) d s.(stale_is_error));
  commit s := (Ok tt, Store s.(working) s.(working) s.(stale_is_error));
  session_rollback s := (Ok tt, Store s.(committed) s.(committed) s.(stale_is_error))
}.

(** A manager as [__init__] leaves it, on a given session. *)
Definition new_manager {S} (s : S) (interval : ext Z) (threshold : ext nat)
    : manager S :=
  Manager s [] false None interval threshold false [] [] [].


(** ** Vocabulary of the properties *)

(** Same manager fields, the session and the events apart. *)
Definition same_fields {S} (w w' : manager S) : Prop :=
  workflow_end w' = workflow_end w ∧
  workflow_start_message w' = workflow_start_message w ∧
  batching_interval w' = batching_interval w ∧
  batching_threshold w' = batching_threshold w ∧
  _kill_event w' = _kill_event w ∧
  pending_priority_queue w' = pending_priority_queue w ∧
  pending_node_queue w' = pending_node_queue w ∧
  pending_resource_queue w' = pending_resource_queue w.

(** Events of the recovery path of [_insert] and [_update]. *)
Definition recovery (ev : event) : Prop :=
  match ev with
  | CallRollback | LogException _ _ => True
  | _ => False
  end.

(** What a rollback attempt adds to the events, given what
    [session.rollback] did. *)
Definition rollback_events (rb : outcome unit) : list event :=
  CallRollback ::
  match rb with
  | Raise e => [LogException "Rollback failed" e]
  | Ok _ => []
  end.

(** Some turn of the batching loop leaves it: the size threshold is finite,
    or some poll comes back empty, or some clock reading reaches the
    interval. *)
Definition leaves_loop {A} (start : Z) (clock : nat → Z) (poll : nat → option A)
    (interval : ext Z) (threshold : ext nat) : Prop :=
  (∃ k, threshold = Finite k) ∨
  (∃ i, poll i = None) ∨
  (∃ i, interval_reached (clock i - start) interval = true).

(** [n] items are no more than the threshold allows. *)
Definition within_threshold (n : nat) (threshold : ext nat) : Prop :=
  match threshold with Finite k => (n ≤ k)%nat | Inf => True end.

(** The turn that finds [i] messages collected leaves the loop. *)
Definition stops_at {A} (start : Z) (clock : nat → Z) (poll : nat → option A)
    (interval : ext Z) (threshold : ext nat) (i : nat) : bool :=
  interval_reached (clock i - start) interval
  || threshold_reached i threshold
  || bool_decide (poll i = None).

(** The messages collected are what the polls gave, in order. *)
Definition polled {A} (poll : nat → option A) (messages : list A) : Prop :=
  ∀ j, (j < length messages)%nat → poll j = messages !! j.

(** A call on the store, or the rollback after it, was cut short by a
    [KeyboardInterrupt]. *)
Definition interrupted {S} `{Session S} (call : M S unit) (w : manager S) : Prop :=
  match call w with
  | (Ok _, _) => False
  | (Raise KeyboardInterrupt, _) => True
  | (Raise (Exception _), w1) => (session_rollback (db w1)).1 = Raise KeyboardInterrupt
  end.

(** [Q] holds of what [c] leaves when run from [w]. *)
Definition wp {S A} (c : M S A) (w : manager S)
    (Q : outcome A → manager S → Prop) : Prop :=
  Q (c w).1 (c w).2.

(** ** The store behind the manager: what a call does to it *)

(** The manager with a new session state and more events. *)
Definition step_store {S} (s : S) (evs : list event) (w : manager S) : manager S :=
  Manager s (w.(events) ++ evs) w.(workflow_end) w.(workflow_start_message)
    w.(batching_interval) w.(batching_threshold) w.(_kill_event)
    w.(pending_priority_queue) w.(pending_node_queue) w.(pending_resource_queue).

(** What [_insert] does to the store and what it logs after its call. *)
Definition insert_effect (t : table) (messages : list msg) (s : store)
    : store * list event :=
  match store_insert t (_generate_mappings t None messages) s.(working) with
  | (Ok _, d) => (Store d d s.(stale_is_error), [])
  | (Raise e, _) =>
      (Store s.(committed) s.(committed) s.(stale_is_error),
       [LogException ("Got exception when trying to insert to table " +:+ table_name t) e;
        CallRollback])
  end.

(** What [_update] does to the store and what it logs after its call. *)
Definition update_effect (t : table) (columns : list string) (messages : list msg)
    (s : store) : store * list event :=
  match store_update s.(stale_is_error) t
          (_generate_mappings t (Some columns) messages) s.(working) with
  | (Ok _, d) => (Store d d s.(stale_is_error), [])
  | (Raise e, _) =>
      (Store s.(committed) s.(committed) s.(stale_is_error),
       [LogException ("Got exception when trying to update table " +:+ table_name t) e;
        CallRollback])
  end.

(** No transaction is open. *)
Definition clean (s : store) : Prop := s.(working) = s.(committed).

(** The loop sees nothing on the external queues and a clock that stands
    still. *)
Definition quiet : surroundings :=
  Surroundings (fun _ => (0%nat, 0%nat)) (fun _ _ => 0) (fun _ _ _ => 0).

(** A node registration message. *)
Definition node_registration : msg :=
  <["run_id" := VStr "r1"]> (<["hostname" := VStr "node7"]>
  (<["cpu_count" := VInt 8]> (<["total_memory" := VInt 1024]>
  (<["active" := VBool true]> (<["worker_count" := VInt 4]>
  (<["python_v" := VStr "3.8"]> (<["reg_time" := VTime 5]> ∅))))))).

(** A manager after [close]: the kill event is set, the priority and
    resource queues are empty, and one node message is still pending. *)
Definition closing_with_node_pending : manager store :=
  Manager (empty_store true) [] false None Inf Inf true [] [node_registration] [].

(** The same, with the message pending on the resource queue instead. *)
Definition closing_with_resource_pending : manager store :=
  Manager (empty_store true) [] false None Inf Inf true [] [] [node_registration].




(** A resource sample that is not the first of its try. *)
Definition later_sample : msg :=
  <["task_id" := VInt 1]> (<["try_id" := VInt 0]> (<["run_id" := VStr "r1"]>
  (<["timestamp" := VTime 7]> (<["first_msg" := VBool false]> ∅)))).

(** ** Inserts asked of the store *)

(** The messages the manager has asked the store to insert into table [t],
    in the order of the calls. *)
Fixpoint inserted_into (t : table) (evs : list event) : list msg :=
  match evs with
  | [] => []
  | CallInsert t' messages :: rest =>
      (if decide (t' = t) then messages else []) ++ inserted_into t rest
  | _ :: rest => inserted_into t rest
  end.

(** What [inserted_tasks] is keyed by. *)
Definition task_key (m : msg) : value := get m "task_id".

(** What [inserted_tries] and [deferred_resource_messages] are keyed by. *)
Definition try_key (m : msg) : string :=
  task_try_id_of (get m "task_id") (get m "try_id").

(** No two inserts asked for the task table share a task, and none asked
    for the try table share a try. *)
Definition inserts_distinct (evs : list event) : Prop :=
  NoDup (task_key <$> inserted_into TASK evs) ∧
  NoDup (try_key <$> inserted_into TRY evs).

(** The same while a priority batch is being sorted: the inserts already
    asked for together with those waiting in the insert lists are distinct,
    and all of them are tracked by the reconciliation sets. *)
Definition inserts_tracked (r : reconciliation) (task_insert try_insert : list msg)
    (evs : list event) : Prop :=
  NoDup (task_key <$> (inserted_into TASK evs ++ task_insert)) ∧
  (∀ m, m ∈ inserted_into TASK evs ++ task_insert → task_key m ∈ r.(inserted_tasks)) ∧
  NoDup (try_key <$> (inserted_into TRY evs ++ try_insert)) ∧
  (∀ m, m ∈ inserted_into TRY evs ++ try_insert → try_key m ∈ r.(inserted_tries)).

(** ** A try and its first resource message *)

(** A first resource message as the coordinator promotes it:
    [task_status_name] and [task_time_running] are written into it. *)
Definition promoted (rm : msg) (timestamp : value) : msg :=
  <["task_time_running" := timestamp]>
    (<["task_status_name" := VStr States_running_name]> rm).

(** The status rows that record the try [(task_id, try_id)] as running. *)
Definition running_rows (task_id try_id : value) (d : tables) : list msg :=
  filter (fun row => get row "task_id" = task_id ∧ get row "try_id" = try_id ∧
                     get row "task_status_name" = VStr "running")
    d.(status_rows).

(** The trace hands the coordinator exactly the priority messages [ps] and
    the resource messages [rs], each stream in order and cut into batches
    in any way, and no node message. *)
Definition delivers (trace : list batch) (ps : list (MessageType * msg))
    (rs : list msg) : Prop :=
  concat (priority_messages <$> trace) = ps ∧
  concat (resource_messages <$> trace) = rs ∧
  concat (node_info_messages <$> trace) = [].

(** The columns of the update that a promoted message makes on its try. *)
Definition promotion_columns : list string :=
  ["task_time_running"; "run_id"; "task_id"; "try_id"; "hostname"].
(** * Properties *)

(** ** The mapping generator *)

Lemma generate_mapping_foldl (m : msg) (columns : list string) (acc : msg) (c : string) :
  foldl (fun acc column => <[column := get m column]> acc) acc columns !! c
  = if decide (c ∈ columns) then Some (get m c) else acc !! c.
Proof.
  revert acc. induction columns as [|c' columns IH]; intros acc; simpl.
  - destruct (decide (c ∈ [])) as [Hin|_]; [set_solver | done].
  - rewrite IH. destruct (decide (c = c')) as [->|Hne].
    + rewrite lookup_insert_eq.
      destruct (decide (c' ∈ columns)) as [?|?], (decide (c' ∈ c' :: columns)) as [?|?];
        try done; set_solver.
    + rewrite lookup_insert_ne by done.
      destruct (decide (c ∈ columns)) as [?|?], (decide (c ∈ c' :: columns)) as [?|?];
        try done; set_solver.
Qed.

Lemma generate_mapping_lookup (columns : list string) (m : msg) (c : string) :
  generate_mapping columns m !! c
  = if decide (c ∈ columns) then Some (get m c) else None.
Proof.
  unfold generate_mapping. rewrite generate_mapping_foldl.
  case_decide; [done | apply lookup_empty].
Qed.

Lemma generate_mapping_dom (columns : list string) (m : msg) :
  dom (generate_mapping columns m) = list_to_set columns.
Proof.
  apply set_eq. intros c. rewrite elem_of_dom, generate_mapping_lookup.
  rewrite elem_of_list_to_set. case_decide; split; intros Hc; try done.
Qed.

(** C9.  The mapping generator gives one mapping per message, in message
    order; each mapping binds exactly the requested columns (all columns of
    the table when none are given), each to the message's value at that key
    and to [None] when the message has no such key; the generator is a total
    function, so a missing key raises nothing. *)
Theorem generate_mappings_one_row_per_message
    (t : table) (columns : option (list string)) (messages : list msg) :
  let requested := match columns with Some cs => cs | None => keys t end in
  length (_generate_mappings t columns messages) = length messages ∧
  Forall2
    (fun (m row : msg) =>
       dom row = list_to_set requested ∧
       ∀ c, c ∈ requested →
            row !! c = Some (match m !! c with Some v => v | None => VNone end))
    messages (_generate_mappings t columns messages).
Proof.
  intros requested. unfold _generate_mappings. fold requested. split.
  - apply length_fmap.
  - apply Forall2_fmap_r, Forall_Forall2_diag, Forall_forall.
    intros m _. split.
    + apply generate_mapping_dom.
    + intros c Hc. rewrite generate_mapping_lookup.
      rewrite decide_True by done. unfold get. by destruct (m !! c).
Qed.

(** ** The exception handling of [_insert] and [_update] *)

Lemma same_fields_refl {S} (w : manager S) : same_fields w w.
Proof. by repeat split. Qed.

Lemma same_fields_trans {S} (w1 w2 w3 : manager S) :
  same_fields w1 w2 → same_fields w2 w3 → same_fields w1 w3.
Proof.
  unfold same_fields. intros (?&?&?&?&?&?&?&?) (?&?&?&?&?&?&?&?).
  repeat split; congruence.
Qed.



Section Handling.
Context {S : Type} `{Session S}.

(** What the rollback attempt does after a failed call. *)
Lemma attempt_rollback_run (w : manager S) rb s2 :
  session_rollback (db w) = (rb, s2) →
  ∃ w2,
    attempt_rollback w
    = (match rb with Raise KeyboardInterrupt => Raise KeyboardInterrupt | _ => Ok tt end,
       w2) ∧
    db w2 = s2 ∧
    same_fields w w2 ∧
    events w2 = events w ++
      match rb with
      | Raise KeyboardInterrupt => [CallRollback]
      | _ => rollback_events rb
      end.
Proof.
  intros Hrb.
  unfold attempt_rollback, try_except_Exception, try_except, Database_rollback,
    bind, emit, on_session, raise, rollback_events; simpl.
  rewrite Hrb. destruct rb as [[]|[|what]]; simpl;
    eexists; (split; [reflexivity|]); simpl; rewrite <- ?app_assoc;
    repeat split; done.
Qed.

(** The shape of every run of [Database.update]: it logs its call, and
    touches nothing but the session. *)
Lemma Database_update_run t columns messages (w : manager S) :
  ∃ o w1,
    Database_update t columns messages w = (o, w1) ∧
    same_fields w w1 ∧
    events w1 = events w ++ [CallUpdate t columns messages].
Proof.
  unfold Database_update, bind, emit, on_session; simpl.
  destruct (bulk_update_mappings _ _ _) as [[[]|e] s1]; simpl.
  - destruct (commit s1) as [[[]|e] s2]; simpl;
      do 2 eexists; (split; [reflexivity|]); by repeat split.
  - do 2 eexists; (split; [reflexivity|]); by repeat split.
Qed.

Lemma Database_insert_run t messages (w : manager S) :
  ∃ o w1,
    Database_insert t messages w = (o, w1) ∧
    same_fields w w1 ∧
    events w1 = events w ++ [CallInsert t messages].
Proof.
  unfold Database_insert, bind, emit, on_session; simpl.
  destruct (bulk_insert_mappings _ _ _) as [[[]|e] s1]; simpl.
  - destruct (commit s1) as [[[]|e] s2]; simpl;
      do 2 eexists; (split; [reflexivity|]); by repeat split.
  - do 2 eexists; (split; [reflexivity|]); by repeat split.
Qed.

(** How [_update] goes on from the outcome of the call it wraps. *)
Lemma _update_unfold t columns messages (w : manager S) :
  _update t columns messages w =
  match Database_update t columns messages w with
  | (Ok a, w1) => (Ok a, w1)
  | (Raise KeyboardInterrupt, w1) =>
      (emit (LogException
               ("KeyboardInterrupt when trying to update Table " +:+ table_name t)
               KeyboardInterrupt) ;;
       attempt_rollback ;; raise KeyboardInterrupt) w1
  | (Raise (Exception what), w1) =>
      (emit (LogException
               ("Got exception when trying to update table " +:+ table_name t)
               (Exception what)) ;;
       attempt_rollback) w1
  end.
Proof. reflexivity. Qed.

Lemma _insert_unfold t messages (w : manager S) :
  _insert t messages w =
  match Database_insert t messages w with
  | (Ok a, w1) => (Ok a, w1)
  | (Raise KeyboardInterrupt, w1) =>
      (emit (LogException
               ("KeyboardInterrupt when trying to update Table " +:+ table_name t)
               KeyboardInterrupt) ;;
       attempt_rollback ;; raise KeyboardInterrupt) w1
  | (Raise (Exception what), w1) =>
      (emit (LogException
               ("Got exception when trying to insert to table " +:+ table_name t)
               (Exception what)) ;;
       attempt_rollback) w1
  end.
Proof. reflexivity. Qed.

Lemma add_event_same_fields ev (w : manager S) : same_fields w (add_event ev w).
Proof. by repeat split. Qed.

(** After a logged line, the rollback attempt. *)
Lemma logged_rollback_run text e (w1 : manager S) rb s2 :
  session_rollback (db w1) = (rb, s2) →
  rb ≠ Raise KeyboardInterrupt →
  ∃ w2,
    (emit (LogException text e) ;; attempt_rollback) w1 = (Ok tt, w2) ∧
    db w2 = s2 ∧
    same_fields w1 w2 ∧
    events w2 = events w1 ++ LogException text e :: rollback_events rb.
Proof.
  intros Hrb Hne.
  destruct (attempt_rollback_run (add_event (LogException text e) w1) rb s2 Hrb)
    as (w2 & Hrun & Hdb & Hsame & Hev).
  exists w2. unfold bind, emit. rewrite Hrun.
  destruct rb as [[]|[|what]]; try done; simpl in *;
    (split; [done|]); (split; [done|]); (split; [done|]);
    by rewrite Hev, <- app_assoc.
Qed.

Lemma logged_rollback_reraise text (w1 : manager S) rb s2 :
  session_rollback (db w1) = (rb, s2) →
  rb ≠ Raise KeyboardInterrupt →
  ∃ w2,
    (emit (LogException text KeyboardInterrupt) ;;
     attempt_rollback ;; (raise KeyboardInterrupt : M S unit)) w1
    = (Raise KeyboardInterrupt, w2) ∧
    db w2 = s2 ∧
    same_fields w1 w2 ∧
    events w2 = events w1 ++ LogException text KeyboardInterrupt :: rollback_events rb.
Proof.
  intros Hrb Hne.
  destruct (attempt_rollback_run (add_event (LogException text KeyboardInterrupt) w1)
              rb s2 Hrb) as (w2 & Hrun & Hdb & Hsame & Hev).
  exists w2. unfold bind, emit, raise. rewrite Hrun.
  destruct rb as [[]|[|what]]; try done; simpl in *;
    (split; [done|]); (split; [done|]); (split; [done|]);
    by rewrite Hev, <- app_assoc.
Qed.

End Handling.

Section Shapes.
Context {S : Type} `{Session S}.

Lemma interrupted_rollback_run text (w1 : manager S) :
  ∃ w2 tail,
    (emit (LogException text KeyboardInterrupt) ;;
     attempt_rollback ;; (raise KeyboardInterrupt : M S unit)) w1
    = (Raise KeyboardInterrupt, w2) ∧
    same_fields w1 w2 ∧
    events w2 = events w1 ++ tail ∧ Forall recovery tail.
Proof.
  set (w1' := add_event (LogException text KeyboardInterrupt) w1).
  destruct (session_rollback (db w1')) as [rb s2] eqn:Hrb.
  destruct (attempt_rollback_run w1' rb s2 Hrb) as (w2 & Hrun & _ & Hsame & Hev).
  exists w2. eexists. unfold bind, emit, raise. fold w1'. rewrite Hrun.
  split; [by destruct rb as [[]|[|?]]|].
  split; [done|]. rewrite Hev. simpl. rewrite <- app_assoc. split; [reflexivity|].
  destruct rb as [[]|[|?]]; simpl; repeat constructor.
Qed.

Lemma handled_rollback_run text e (w1 : manager S) :
  ∃ o w2 tail,
    (emit (LogException text e) ;; attempt_rollback) w1 = (o, w2) ∧
    (o = Ok tt ∨ o = Raise KeyboardInterrupt) ∧
    same_fields w1 w2 ∧
    events w2 = events w1 ++ tail ∧ Forall recovery tail.
Proof.
  set (w1' := add_event (LogException text e) w1).
  destruct (session_rollback (db w1')) as [rb s2] eqn:Hrb.
  destruct (attempt_rollback_run w1' rb s2 Hrb) as (w2 & Hrun & _ & Hsame & Hev).
  eexists _, w2, _. unfold bind, emit. fold w1'.
  split; [exact Hrun|].
  split; [destruct rb as [[]|[|?]]; auto|].
  split; [done|]. rewrite Hev. simpl. rewrite <- app_assoc. split; [reflexivity|].
  destruct rb as [[]|[|?]]; simpl; repeat constructor.
Qed.

Lemma handled_rollback_interrupted text e (w1 : manager S) o w2 :
  (emit (LogException text e) ;; attempt_rollback) w1 = (o, w2) →
  o = Raise KeyboardInterrupt ↔ (session_rollback (db w1)).1 = Raise KeyboardInterrupt.
Proof.
  destruct (session_rollback (db w1)) as [rb s2] eqn:Hrb.
  destruct (attempt_rollback_run (add_event (LogException text e) w1) rb s2 Hrb)
    as (w2' & Hrun & _).
  unfold bind, emit. rewrite Hrun. intros [= <- <-]. simpl.
  destruct rb as [[]|[|?]]; split; intros; done.
Qed.

(** Every run of [_update]: the call is logged first, only recovery events
    follow it, no other field changes, and it returns unless a
    [KeyboardInterrupt] cut the call or the rollback. *)
Lemma _update_shape t columns messages (w : manager S) :
  ∃ o w' tail,
    _update t columns messages w = (o, w') ∧
    (o = Ok tt ∧ ¬ interrupted (Database_update t columns messages) w
     ∨ o = Raise KeyboardInterrupt ∧ interrupted (Database_update t columns messages) w) ∧
    same_fields w w' ∧
    events w' = events w ++ CallUpdate t columns messages :: tail ∧
    Forall recovery tail.
Proof.
  rewrite _update_unfold. unfold interrupted.
  destruct (Database_update_run t columns messages w) as (o & w1 & -> & Hs & Hev).
  destruct o as [[]|[|what]].
  - eexists _, _, []. split; [reflexivity|]. split; [left; split; [done|tauto]|].
    split; [done|]. split; [done | constructor].
  - destruct (interrupted_rollback_run
                ("KeyboardInterrupt when trying to update Table " +:+ table_name t) w1)
      as (w2 & tail & -> & Hs2 & Hev2 & Hrec).
    eexists _, _, tail. split; [reflexivity|]. split; [by right|].
    split; [by eapply same_fields_trans|].
    split; [|done]. by rewrite Hev2, Hev, <- app_assoc.
  - destruct (handled_rollback_run
                ("Got exception when trying to update table " +:+ table_name t)
                (Exception what) w1)
      as (o & w2 & tail & Hrun & Ho & Hs2 & Hev2 & Hrec).
    pose proof (handled_rollback_interrupted _ _ _ _ _ Hrun) as Hint.
    rewrite Hrun.
    eexists _, _, tail. split; [reflexivity|].
    split.
    { destruct Ho as [->| ->]; [left|right]; (split; [done|]).
      - intros Hi. apply Hint in Hi. done.
      - by apply Hint. }
    split; [by eapply same_fields_trans|].
    split; [|done]. by rewrite Hev2, Hev, <- app_assoc.
Qed.

Lemma _insert_shape t messages (w : manager S) :
  ∃ o w' tail,
    _insert t messages w = (o, w') ∧
    (o = Ok tt ∧ ¬ interrupted (Database_insert t messages) w
     ∨ o = Raise KeyboardInterrupt ∧ interrupted (Database_insert t messages) w) ∧
    same_fields w w' ∧
    events w' = events w ++ CallInsert t messages :: tail ∧
    Forall recovery tail.
Proof.
  rewrite _insert_unfold. unfold interrupted.
  destruct (Database_insert_run t messages w) as (o & w1 & -> & Hs & Hev).
  destruct o as [[]|[|what]].
  - eexists _, _, []. split; [reflexivity|]. split; [left; split; [done|tauto]|].
    split; [done|]. split; [done | constructor].
  - destruct (interrupted_rollback_run
                ("KeyboardInterrupt when trying to update Table " +:+ table_name t) w1)
      as (w2 & tail & -> & Hs2 & Hev2 & Hrec).
    eexists _, _, tail. split; [reflexivity|]. split; [by right|].
    split; [by eapply same_fields_trans|].
    split; [|done]. by rewrite Hev2, Hev, <- app_assoc.
  - destruct (handled_rollback_run
                ("Got exception when trying to insert to table " +:+ table_name t)
                (Exception what) w1)
      as (o & w2 & tail & Hrun & Ho & Hs2 & Hev2 & Hrec).
    pose proof (handled_rollback_interrupted _ _ _ _ _ Hrun) as Hint.
    rewrite Hrun.
    eexists _, _, tail. split; [reflexivity|].
    split.
    { destruct Ho as [->| ->]; [left|right]; (split; [done|]).
      - intros Hi. apply Hint in Hi. done.
      - by apply Hint. }
    split; [by eapply same_fields_trans|].
    split; [|done]. by rewrite Hev2, Hev, <- app_assoc.
Qed.

End Shapes.

(** C7.  When the call on the store inside [_update] or [_insert] raises an
    [Exception], the exception is logged, a rollback is attempted, an
    [Exception] raised by the rollback itself is logged and dropped, and the
    method returns normally.  When the call raises [KeyboardInterrupt], the
    interrupt is logged, the same rollback attempt is made, and the
    interrupt is raised again. *)
Theorem dml_exceptions_are_contained
    (S : Type) `{Session S} (t : table) (columns : list string)
    (messages : list msg) (w : manager S) :
  (∀ what w1 rb s2,
     Database_update t columns messages w = (Raise (Exception what), w1) →
     session_rollback (db w1) = (rb, s2) → rb ≠ Raise KeyboardInterrupt →
     ∃ w2, _update t columns messages w = (Ok tt, w2) ∧ db w2 = s2 ∧
           events w2 = events w1 ++
             LogException ("Got exception when trying to update table " +:+ table_name t)
               (Exception what) :: rollback_events rb) ∧
  (∀ w1 rb s2,
     Database_update t columns messages w = (Raise KeyboardInterrupt, w1) →
     session_rollback (db w1) = (rb, s2) → rb ≠ Raise KeyboardInterrupt →
     ∃ w2, _update t columns messages w = (Raise KeyboardInterrupt, w2) ∧ db w2 = s2 ∧
           events w2 = events w1 ++
             LogException ("KeyboardInterrupt when trying to update Table " +:+ table_name t)
               KeyboardInterrupt :: rollback_events rb) ∧
  (∀ what w1 rb s2,
     Database_insert t messages w = (Raise (Exception what), w1) →
     session_rollback (db w1) = (rb, s2) → rb ≠ Raise KeyboardInterrupt →
     ∃ w2, _insert t messages w = (Ok tt, w2) ∧ db w2 = s2 ∧
           events w2 = events w1 ++
             LogException ("Got exception when trying to insert to table " +:+ table_name t)
               (Exception what) :: rollback_events rb) ∧
  (∀ w1 rb s2,
     Database_insert t messages w = (Raise KeyboardInterrupt, w1) →
     session_rollback (db w1) = (rb, s2) → rb ≠ Raise KeyboardInterrupt →
     ∃ w2, _insert t messages w = (Raise KeyboardInterrupt, w2) ∧ db w2 = s2 ∧
           events w2 = events w1 ++
             LogException ("KeyboardInterrupt when trying to update Table " +:+ table_name t)
               KeyboardInterrupt :: rollback_events rb).
Proof.
  repeat split.
  - intros what w1 rb s2 Hcall Hrb Hne. rewrite _update_unfold, Hcall.
    destruct (logged_rollback_run
                ("Got exception when trying to update table " +:+ table_name t)
                (Exception what) w1 rb s2 Hrb Hne) as (w2 & -> & Hdb & _ & Hev).
    by exists w2.
  - intros w1 rb s2 Hcall Hrb Hne. rewrite _update_unfold, Hcall.
    destruct (logged_rollback_reraise
                ("KeyboardInterrupt when trying to update Table " +:+ table_name t)
                w1 rb s2 Hrb Hne) as (w2 & -> & Hdb & _ & Hev).
    by exists w2.
  - intros what w1 rb s2 Hcall Hrb Hne. rewrite _insert_unfold, Hcall.
    destruct (logged_rollback_run
                ("Got exception when trying to insert to table " +:+ table_name t)
                (Exception what) w1 rb s2 Hrb Hne) as (w2 & -> & Hdb & _ & Hev).
    by exists w2.
  - intros w1 rb s2 Hcall Hrb Hne. rewrite _insert_unfold, Hcall.
    destruct (logged_rollback_reraise
                ("KeyboardInterrupt when trying to update Table " +:+ table_name t)
                w1 rb s2 Hrb Hne) as (w2 & -> & Hdb & _ & Hev).
    by exists w2.
Qed.

(** ** The batcher *)

Section BatcherProperties.
Context {A : Type}.
Variable start : Z.
Variable clock : nat → Z.
Variable poll : nat → option A.
Variable interval : ext Z.
Variable threshold : ext nat.

Let loop := batch_loop start clock poll.
Let stops := stops_at start clock poll interval threshold.

Let polled := polled poll.

Lemma polled_snoc messages x :
  polled messages → poll (length messages) = Some x → polled (messages ++ [x]).
Proof.
  intros Hp Hx j Hj. rewrite length_app in Hj. simpl in Hj.
  destruct (decide (j = length messages)) as [->|Hne].
  - rewrite Hx. symmetry. apply list_lookup_middle. done.
  - rewrite lookup_app_l by lia. apply Hp. lia.
Qed.

Lemma batch_loop_stops (d : nat) : ∀ messages,
  stops (length messages + d)%nat = true →
  polled messages →
  ∃ result,
    loop (Datatypes.S d) interval threshold messages = Some result ∧
    polled result ∧
    (length messages ≤ length result)%nat ∧
    stops (length result) = true ∧
    (∀ j, (length messages ≤ j < length result)%nat → stops j = false).
Proof.
  induction d as [|d IH]; intros messages Hstop Hp.
  - rewrite Nat.add_0_r in Hstop. exists messages.
    split; [|repeat split; [done|lia|done|intros; lia]].
    unfold loop, stops, stops_at in *. simpl.
    destruct (interval_reached _ _ || threshold_reached _ _); [done|].
    simpl in Hstop. apply bool_decide_eq_true in Hstop. by rewrite Hstop.
  - unfold loop. simpl. fold loop.
    destruct (interval_reached (clock (length messages) - start) interval
              || threshold_reached (length messages) threshold) eqn:Hcut.
    + exists messages. split; [done|]. split; [done|]. split; [lia|].
      split; [unfold stops, stops_at; by rewrite Hcut | intros; lia].
    + destruct (poll (length messages)) as [x|] eqn:Hpoll.
      * destruct (IH (messages ++ [x])) as (result & Hrun & Hpr & Hlen & Hs & Hbefore).
        { rewrite length_app. simpl.
          by replace (length messages + 1 + d)%nat
            with (length messages + Datatypes.S d)%nat by lia. }
        { by apply polled_snoc. }
        rewrite length_app in Hlen, Hbefore. simpl in Hlen, Hbefore.
        exists result. unfold loop in Hrun.
        change (batch_loop start clock poll (Datatypes.S d) interval threshold
                  (messages ++ [x]) = Some result) in Hrun.
        split; [exact Hrun|]. split; [done|]. split; [lia|]. split; [done|].
        intros j Hj. destruct (decide (j = length messages)) as [->|Hne].
        -- unfold stops, stops_at. by rewrite Hcut, Hpoll.
        -- apply Hbefore. lia.
      * exists messages. split; [done|]. split; [done|]. split; [lia|].
        split; [|intros; lia].
        unfold stops, stops_at. rewrite Hpoll.
        rewrite bool_decide_eq_true_2 by done. apply orb_true_r.
Qed.

Lemma batch_loop_more_fuel (fuel extra : nat) : ∀ messages result,
  loop fuel interval threshold messages = Some result →
  loop (fuel + extra)%nat interval threshold messages = Some result.
Proof.
  induction fuel as [|fuel IH]; intros messages result Hrun; [done|].
  unfold loop in *. simpl in *.
  destruct (interval_reached _ _ || threshold_reached _ _); [done|].
  destruct (poll (length messages)); [|done]. by apply IH.
Qed.

Lemma leaves_loop_stops :
  leaves_loop start clock poll interval threshold → ∃ i, stops i = true.
Proof.
  unfold stops, stops_at. intros [[k ->]|[[i Hi]|[i Hi]]].
  - exists k. simpl. rewrite Nat.leb_refl. by rewrite orb_true_r.
  - exists i. rewrite bool_decide_eq_true_2 by done. apply orb_true_r.
  - exists i. by rewrite Hi.
Qed.

Lemma stops_bounds (n : nat) :
  (∀ j, (j < n)%nat → stops j = false) →
  within_threshold n threshold ∧ (∀ i, poll i = None → (n ≤ i)%nat).
Proof.
  intros Hbefore. split.
  - unfold within_threshold. destruct threshold as [k|] eqn:Hth; [|done].
    destruct (decide (n ≤ k)%nat) as [|Hgt]; [done|].
    assert (stops k = false) as Hk by (apply Hbefore; lia).
    unfold stops, stops_at in Hk. rewrite ?Hth in Hk. simpl in Hk.
    rewrite Nat.leb_refl in Hk. by rewrite orb_true_r in Hk.
  - intros i Hi. destruct (decide (n ≤ i)%nat) as [|Hgt]; [done|].
    assert (stops i = false) as Hk by (apply Hbefore; lia).
    unfold stops, stops_at in Hk.
    rewrite (bool_decide_eq_true_2 _ Hi) in Hk. by rewrite orb_true_r in Hk.
Qed.

End BatcherProperties.

(** C8.  Whenever some turn can leave the loop (the threshold is finite, or
    a poll comes back empty, or the clock reaches the interval),
    [_get_messages_in_batch] returns: with enough turns allowed it gives a
    list, possibly empty.  The list holds the polled items in order, never
    more of them than the threshold, and no more than were collected when
    the first poll came back empty: an empty poll ends the batch whatever
    the threshold, so the threshold is an upper bound and not a minimum. *)
Theorem get_messages_in_batch_returns_bounded
    (A : Type) (start : Z) (clock : nat → Z) (poll : nat → option A)
    (interval : ext Z) (threshold : ext nat) :
  leaves_loop start clock poll interval threshold →
  ∃ fuel messages,
    (∀ fuel', (fuel ≤ fuel')%nat →
       _get_messages_in_batch start clock poll fuel' interval threshold
       = Some messages) ∧
    within_threshold (length messages) threshold ∧
    (∀ j, (j < length messages)%nat → poll j = messages !! j) ∧
    (∀ i, poll i = None → (length messages ≤ i)%nat).
Proof.
  intros Hleaves.
  destruct (leaves_loop_stops start clock poll interval threshold Hleaves) as [i Hi].
  destruct (batch_loop_stops start clock poll interval threshold i [])
    as (result & Hrun & Hp & _ & _ & Hbefore).
  { done. }
  { intros j Hj. simpl in Hj. lia. }
  exists (Datatypes.S i), result. split.
  - intros fuel' Hfuel. unfold _get_messages_in_batch.
    replace fuel' with (Datatypes.S i + (fuel' - Datatypes.S i))%nat by lia.
    by apply batch_loop_more_fuel.
  - destruct (stops_bounds start clock poll interval threshold (length result))
      as [Hw He].
    { intros j Hj. apply Hbefore. simpl. lia. }
    done.
Qed.

Lemma get_messages_in_batch_returns_bounded_witness :
  leaves_loop 0 (fun i => Z.of_nat i) (fun i => [7; 8; 9] !! i) (Finite 10) Inf ∧
  ∃ fuel messages,
    (∀ fuel', (fuel ≤ fuel')%nat →
       _get_messages_in_batch 0 (fun i => Z.of_nat i) (fun i => [7; 8; 9] !! i)
         fuel' (Finite 10) Inf = Some messages) ∧
    within_threshold (length messages) Inf ∧
    (∀ j, (j < length messages)%nat → [7; 8; 9] !! j = messages !! j) ∧
    (∀ i, [7; 8; 9] !! i = None → (length messages ≤ i)%nat).
Proof.
  assert (leaves_loop 0 (fun i => Z.of_nat i) (fun i => [7; 8; 9] !! i) (Finite 10) Inf)
    as Hleaves.
  { right. left. exists 3%nat. reflexivity. }
  split; [exact Hleaves|].
  exact (get_messages_in_batch_returns_bounded Z 0 (fun i => Z.of_nat i)
           (fun i => [7; 8; 9] !! i) (Finite 10) Inf Hleaves).
Defined.

(** ** Reasoning rules for programs of the manager monad *)

Section Rules.
Context {S : Type} `{Session S}.

Lemma wp_ret {A} (a : A) (w : manager S) Q : Q (Ok a) w → wp (ret a) w Q.
Proof. done. Qed.

Lemma wp_raise {A} (e : exn) (w : manager S) (Q : outcome A → manager S → Prop) :
  Q (Raise e) w → wp (raise e) w Q.
Proof. done. Qed.

Lemma wp_bind {A B} (c : M S A) (k : A → M S B) (w : manager S) Q :
  wp c w (fun o w' => match o with
                      | Ok a => wp (k a) w' Q
                      | Raise e => Q (Raise e) w'
                      end) →
  wp (bind c k) w Q.
Proof. unfold wp, bind. by destruct (c w) as [[a|e] w']. Qed.

Lemma wp_mono {A} (c : M S A) (w : manager S) (Q Q' : outcome A → manager S → Prop) :
  wp c w Q → (∀ o w', Q o w' → Q' o w') → wp c w Q'.
Proof. unfold wp. auto. Qed.

Lemma wp_run {A} (c : M S A) (w : manager S) Q o w' :
  wp c w Q → c w = (o, w') → Q o w'.
Proof. unfold wp. intros HQ Hrun. by rewrite Hrun in HQ. Qed.

Lemma wp_emit (ev : event) (w : manager S) Q :
  Q (Ok tt) (add_event ev w) → wp (emit ev) w Q.
Proof. done. Qed.

Lemma wp_getitem (m : msg) (key : string) (w : manager S) Q :
  (∀ v, m !! key = Some v → Q (Ok v) w) →
  (m !! key = None → Q (Raise (Exception ("KeyError: " +:+ key))) w) →
  wp (getitem m key) w Q.
Proof.
  unfold wp, getitem. intros Hs Hn. destruct (m !! key) as [v|]; simpl; auto.
Qed.

Lemma wp__insert t messages (w : manager S) Q :
  (∀ o w' tail,
     (o = Ok tt ∧ ¬ interrupted (Database_insert t messages) w
      ∨ o = Raise KeyboardInterrupt ∧ interrupted (Database_insert t messages) w) →
     same_fields w w' →
     events w' = events w ++ CallInsert t messages :: tail →
     Forall recovery tail →
     Q o w') →
  wp (_insert t messages) w Q.
Proof.
  intros HQ. destruct (_insert_shape t messages w) as (o & w' & tail & Hrun & ?&?&?&?).
  unfold wp. rewrite Hrun. simpl. eauto.
Qed.

Lemma wp__update t columns messages (w : manager S) Q :
  (∀ o w' tail,
     (o = Ok tt ∧ ¬ interrupted (Database_update t columns messages) w
      ∨ o = Raise KeyboardInterrupt ∧ interrupted (Database_update t columns messages) w) →
     same_fields w w' →
     events w' = events w ++ CallUpdate t columns messages :: tail →
     Forall recovery tail →
     Q o w') →
  wp (_update t columns messages) w Q.
Proof.
  intros HQ.
  destruct (_update_shape t columns messages w) as (o & w' & tail & Hrun & ?&?&?&?).
  unfold wp. rewrite Hrun. simpl. eauto.
Qed.

End Rules.

(** ** Workflow start and workflow end *)


(** ** Resource messages that are not the first of their try *)

Section LaterResource.
Context {S : Type} `{Session S}.

Lemma resource_step_later (m : msg) (task_id try_id first_msg : value)
    (st : reconciliation * list msg) (w : manager S) :
  m !! "task_id" = Some task_id →
  m !! "try_id" = Some try_id →
  m !! "first_msg" = Some first_msg →
  truthy first_msg = false →
  resource_step st m w = (Ok st, w).
Proof.
  intros Ht Hy Hf Hfalse. destruct st as [r reprocessable].
  unfold resource_step, bind, getitem. rewrite Ht, Hy, Hf. simpl.
  by rewrite Hfalse.
Qed.

Lemma resource_loop_app (l1 l2 : list msg) : ∀ st (w : manager S),
  resource_loop st (l1 ++ l2) w =
  match resource_loop st l1 w with
  | (Ok st', w') => resource_loop st' l2 w'
  | (Raise e, w') => (Raise e, w')
  end.
Proof.
  induction l1 as [|m l1 IH]; intros st w; simpl; [done|].
  unfold bind. destruct (resource_step st m w) as [[st'|e] w']; [apply IH | done].
Qed.

End LaterResource.

(** C10.  A resource message whose [first_msg] is false leads to nothing
    but the insert into the resource table: its turn of the loop over the
    batch changes neither the reconciliation structures nor the list of
    promoted messages and asks nothing of the store, so a batch handles the
    other messages as if it were not there; and an iteration that gets this
    message alone asks the store for the resource insert and nothing else,
    and leaves [inserted_tasks], [inserted_tries] and
    [deferred_resource_messages] as they were. *)
Theorem later_resource_message_only_inserted
    (S : Type) `{Session S} (m : msg) (task_id try_id first_msg : value) :
  m !! "task_id" = Some task_id →
  m !! "try_id" = Some try_id →
  m !! "first_msg" = Some first_msg →
  truthy first_msg = false →
  (∀ st (w : manager S), resource_step st m w = (Ok st, w)) ∧
  (∀ st before after (w : manager S),
     resource_loop st (before ++ m :: after) w
     = resource_loop st (before ++ after) w) ∧
  (∀ r (w : manager S), ∃ o w' tail,
     iteration r (Batch [] [] [m]) w = (o, w') ∧
     events w' = events w ++ CallInsert RESOURCE [m] :: tail ∧
     Forall recovery tail ∧
     same_fields w w' ∧
     (o = Ok r ∨ o = Raise KeyboardInterrupt)).
Proof.
  intros Ht Hy Hf Hfalse.
  assert (∀ st (w : manager S), resource_step st m w = (Ok st, w)) as Hstep.
  { intros st w. by eapply resource_step_later. }
  split; [exact Hstep|]. split.
  - intros st before after w. rewrite !resource_loop_app.
    destruct (resource_loop st before w) as [[st'|e] w']; [|done].
    simpl. unfold bind. by rewrite Hstep.
  - intros r w.
    destruct (_insert_shape RESOURCE [m] w)
      as (o & w1 & tail & Hrun & Ho & Hs & Hev & Hrec).
    exists (match o with Ok _ => Ok r | Raise e => Raise e end), w1, tail.
    split; [|by destruct Ho as [[-> _]|[-> _]]; auto].
    unfold iteration, priority_phase, node_phase, resource_phase, reprocess_phase,
      when_nonempty, bind, ret.
    cbn [priority_messages node_info_messages resource_messages resource_loop].
    rewrite Hrun. destruct o as [[]|e]; [|done].
    unfold bind. by rewrite Hstep.
Qed.

Lemma later_resource_message_only_inserted_witness :
  (later_sample !! "task_id" = Some (VInt 1) ∧
   later_sample !! "try_id" = Some (VInt 0) ∧
   later_sample !! "first_msg" = Some (VBool false) ∧
   truthy (VBool false) = false) ∧
  (∀ st (w : manager store), resource_step st later_sample w = (Ok st, w)) ∧
  (∀ st before after (w : manager store),
     resource_loop st (before ++ later_sample :: after) w
     = resource_loop st (before ++ after) w) ∧
  (∀ r (w : manager store), ∃ o w' tail,
     iteration r (Batch [] [] [later_sample]) w = (o, w') ∧
     events w' = events w ++ CallInsert RESOURCE [later_sample] :: tail ∧
     Forall recovery tail ∧
     same_fields w w' ∧
     (o = Ok r ∨ o = Raise KeyboardInterrupt)).
Proof.
  split; [by repeat split|].
  apply (later_resource_message_only_inserted store later_sample
           (VInt 1) (VInt 0) (VBool false)); reflexivity.
Defined.

(** ** The end of the loop *)

(** C4 (the code departs from the claim).  With the kill event set and the
    priority and resource queues empty, the loop ends although a node
    message is still pending: the loop condition reads the sizes of the
    priority and resource queues only.  The message stays in
    [pending_node_queue] and no row reaches the node table.  The same
    message pending on the resource queue keeps the loop going. *)
Theorem loop_ends_with_node_message_pending (fuel n : nat) (r : reconciliation) :
  loop_condition closing_with_node_pending 0 0 = false ∧
  start_loop quiet fuel n r closing_with_node_pending
  = Some (Ok r, closing_with_node_pending) ∧
  pending_node_queue closing_with_node_pending = [node_registration] ∧
  node_rows (committed (db closing_with_node_pending)) = [] ∧
  loop_condition closing_with_resource_pending 0 0 = true.
Proof.
  split; [reflexivity|]. split; [by destruct fuel|]. by repeat split.
Qed.

Lemma loop_condition_false {S} (w : manager S) (priority_qsize resource_qsize : nat) :
  loop_condition w priority_qsize resource_qsize = false ↔
  _kill_event w = true ∧
  pending_priority_queue w = [] ∧ pending_resource_queue w = [] ∧
  priority_qsize = 0%nat ∧ resource_qsize = 0%nat.
Proof.
  unfold loop_condition.
  destruct (_kill_event w), (pending_priority_queue w), (pending_resource_queue w),
    priority_qsize, resource_qsize; simpl; split; try done;
    intros (?&?&?&?&?); done.
Qed.

(** ** The manager on the relational store *)

Lemma step_store_same_fields {S} (s : S) evs (w : manager S) :
  same_fields w (step_store s evs w).
Proof. by repeat split. Qed.

Lemma step_store_step_store {S} (s1 s2 : S) evs1 evs2 (w : manager S) :
  step_store s2 evs2 (step_store s1 evs1 w) = step_store s2 (evs1 ++ evs2) w.
Proof. unfold step_store. simpl. by rewrite app_assoc. Qed.

(** On the relational store [_insert] always returns: the store raises no
    interrupt, and its rollback does not fail. *)
Lemma _insert_store (t : table) (messages : list msg) (w : manager store) :
  _insert t messages w
  = (Ok tt,
     step_store (insert_effect t messages (db w)).1
       (CallInsert t messages :: (insert_effect t messages (db w)).2) w).
Proof.
  unfold _insert, try_except, Database_insert, attempt_rollback, try_except_Exception,
    try_except, Database_rollback, bind, emit, on_session, insert_effect, step_store,
    add_event, set_db.
  simpl.
  destruct (store_insert t (_generate_mappings t None messages) (working (db w)))
    as [[[]|[|what]] d] eqn:Hins; simpl; try done.
  - exfalso. revert Hins. generalize (working (db w)).
    induction (_generate_mappings t None messages) as [|mapping rest IH];
      intros d0; simpl; [done|].
    repeat case_match; try done. apply IH.
  - by rewrite <- !app_assoc.
Qed.

Lemma _update_store (t : table) (columns : list string) (messages : list msg)
    (w : manager store) :
  _update t columns messages w
  = (Ok tt,
     step_store (update_effect t columns messages (db w)).1
       (CallUpdate t columns messages :: (update_effect t columns messages (db w)).2) w).
Proof.
  unfold _update, try_except, Database_update, attempt_rollback, try_except_Exception,
    try_except, Database_rollback, bind, emit, on_session, update_effect, step_store,
    add_event, set_db.
  simpl.
  destruct (store_update (stale_is_error (db w)) t
              (_generate_mappings t (Some columns) messages) (working (db w)))
    as [[[]|[|what]] d] eqn:Hupd; simpl; try done.
  - exfalso. revert Hupd. generalize (working (db w)).
    induction (_generate_mappings t (Some columns) messages) as [|mapping rest IH];
      intros d0; simpl; [done|].
    repeat case_match; try done; apply IH.
  - by rewrite <- !app_assoc.
Qed.

Lemma insert_effect_clean t messages s : clean (insert_effect t messages s).1.
Proof. unfold insert_effect, clean. by repeat case_match. Qed.

Lemma update_effect_clean t columns messages s :
  clean (update_effect t columns messages s).1.
Proof. unfold update_effect, clean. by repeat case_match. Qed.

Lemma insert_effect_stale t messages s :
  stale_is_error (insert_effect t messages s).1 = stale_is_error s.
Proof. unfold insert_effect. by repeat case_match. Qed.

Lemma update_effect_stale t columns messages s :
  stale_is_error (update_effect t columns messages s).1 = stale_is_error s.
Proof. unfold update_effect. by repeat case_match. Qed.

Lemma get_generate_mapping (columns : list string) (m : msg) (c : string) :
  get (generate_mapping columns m) c = if decide (c ∈ columns) then get m c else VNone.
Proof. unfold get at 1. rewrite generate_mapping_lookup. by case_decide. Qed.

Lemma apply_update_foldl (t : table) (mapping : msg) (columns : list string) (c : string) :
  ∀ acc : msg,
  foldl (fun acc c =>
           if bool_decide (is_Some (mapping !! c)) && negb (bool_decide (c ∈ primary_key t))
           then <[c := get mapping c]> acc else acc) acc columns !! c
  = if bool_decide (c ∈ columns) && bool_decide (is_Some (mapping !! c))
       && negb (bool_decide (c ∈ primary_key t))
    then Some (get mapping c) else acc !! c.
Proof.
  induction columns as [|c' columns IH]; intros acc; simpl.
  - destruct (bool_decide (c ∈ [])) eqn:Hb; [|done].
    apply bool_decide_eq_true in Hb. set_solver.
  - rewrite IH. destruct (decide (c = c')) as [->|Hne].
    + rewrite (bool_decide_eq_true_2 (c' ∈ c' :: columns)) by set_solver.
      destruct (bool_decide (c' ∈ columns)); simpl;
        destruct (bool_decide (is_Some (mapping !! c'))
                  && negb (bool_decide (c' ∈ primary_key t))) eqn:Hc;
        simpl; rewrite ?Hc; try done. by rewrite lookup_insert_eq.
    + assert (bool_decide (c ∈ c' :: columns) = bool_decide (c ∈ columns)) as ->.
      { apply bool_decide_ext. set_solver. }
      destruct (bool_decide (c ∈ columns) && bool_decide (is_Some (mapping !! c))
                && negb (bool_decide (c ∈ primary_key t))); [done|].
      destruct (bool_decide (is_Some (mapping !! c'))
                && negb (bool_decide (c' ∈ primary_key t))); [|done].
      by rewrite lookup_insert_ne.
Qed.

Lemma apply_update_lookup (t : table) (mapping row : msg) (c : string) :
  apply_update t mapping row !! c
  = if bool_decide (c ∈ keys t) && bool_decide (is_Some (mapping !! c))
       && negb (bool_decide (c ∈ primary_key t))
    then Some (get mapping c) else row !! c.
Proof. apply apply_update_foldl. Qed.

(** An UPDATE leaves the key columns of every row as they are. *)
Lemma apply_update_key (t : table) (mapping row : msg) (c : string) :
  c ∈ primary_key t → get (apply_update t mapping row) c = get row c.
Proof.
  intros Hc. unfold get. rewrite apply_update_lookup.
  rewrite (bool_decide_eq_true_2 (c ∈ primary_key t)) by done.
  by rewrite andb_false_r.
Qed.

Lemma apply_update_pk (t : table) (mapping row : msg) :
  pk_of t (apply_update t mapping row) = pk_of t row.
Proof.
  unfold pk_of. apply list_fmap_ext. intros i c Hc.
  apply apply_update_key. by eapply list_elem_of_lookup_2.
Qed.

(** ** The finaliser *)

Lemma store_update_one (stale : bool) (t : table) (mapping : msg) (d : tables) :
  VNone ∉ pk_of t mapping →
  pk_of t mapping ∈ pk_of t <$> rows t d →
  set_ok t mapping = true →
  store_update stale t [mapping] d
  = (Ok tt,
     set_rows t
       ((fun row => if decide (pk_of t row = pk_of t mapping)
                    then apply_update t mapping row else row) <$> rows t d) d).
Proof.
  intros Hnone Hin Hok. simpl.
  rewrite bool_decide_eq_false_2 by done.
  rewrite bool_decide_eq_true_2 by done.
  by rewrite Hok.
Qed.





Lemma inserted_into_app t evs evs' :
  inserted_into t (evs ++ evs') = inserted_into t evs ++ inserted_into t evs'.
Proof.
  induction evs as [|ev evs IH]; simpl; [done|].
  destruct ev; simpl; rewrite ?IH, ?app_assoc; done.
Qed.

Lemma inserted_into_recovery t tail : Forall recovery tail → inserted_into t tail = [].
Proof.
  induction 1 as [|ev tail Hev _ IH]; simpl; [done|]. by destruct ev.
Qed.

Lemma inserts_tracked_distinct r ti yi evs :
  inserts_tracked r ti yi evs → inserts_distinct evs.
Proof.
  intros (Ht & _ & Hy & _). split.
  - rewrite fmap_app in Ht. by apply NoDup_app in Ht as [? _].
  - rewrite fmap_app in Hy. by apply NoDup_app in Hy as [? _].
Qed.

(** ** At most one insert per task and per try *)

Section Fresh.
Context {K : Type} `{Countable K}.

(** A message whose key is not yet in the set can join the pending list. *)
Lemma fresh_key_joins (key : msg → K) (s : gset K) (base pending : list msg) (m : msg) :
  NoDup (key <$> (base ++ pending)) →
  (∀ m0, m0 ∈ base ++ pending → key m0 ∈ s) →
  key m ∉ s →
  NoDup (key <$> (base ++ pending ++ [m])) ∧
  (∀ m0, m0 ∈ base ++ pending ++ [m] → key m0 ∈ {[key m]} ∪ s).
Proof.
  intros Hnd Hin Hfresh. split.
  - rewrite app_assoc, fmap_app. apply NoDup_app. split; [done|]. split.
    + intros k Hk Hk'. simpl in Hk'. apply list_elem_of_singleton in Hk' as ->.
      apply list_elem_of_fmap in Hk as (m0 & Heq & Hm0). apply Hfresh.
      rewrite Heq. by apply Hin.
    + simpl. apply NoDup_singleton.
  - intros m0 Hm0. rewrite app_assoc in Hm0. apply elem_of_app in Hm0 as [Hm0|Hm0].
    + apply elem_of_union_r. by apply Hin.
    + apply list_elem_of_singleton in Hm0 as ->. apply elem_of_union_l.
      by apply elem_of_singleton.
Qed.

Lemma tracked_key_weaken (key : msg → K) (s : gset K) (l : list msg) (k : K) :
  (∀ m0, m0 ∈ l → key m0 ∈ s) → (∀ m0, m0 ∈ l → key m0 ∈ {[k]} ∪ s).
Proof. intros Hin m0 Hm0. apply elem_of_union_r. by apply Hin. Qed.

End Fresh.

Section Tracking.
Context {S : Type} `{Session S}.

(** A call of [_insert] adds its messages to the inserts asked for its
    table and to no other. *)
Lemma wp__insert_inserted t messages (w : manager S) :
  wp (_insert t messages) w (fun o w' =>
    (o = Ok tt ∨ o = Raise KeyboardInterrupt) ∧
    ∀ t', inserted_into t' (events w')
          = inserted_into t' (events w) ++ (if decide (t = t') then messages else [])).
Proof.
  apply wp__insert. intros o w' tail Ho _ Hev Hrec. split; [tauto|].
  intros t'. rewrite Hev, inserted_into_app. simpl.
  by rewrite (inserted_into_recovery _ _ Hrec), app_nil_r.
Qed.

Lemma wp__update_inserted t columns messages (w : manager S) :
  wp (_update t columns messages) w (fun o w' =>
    (o = Ok tt ∨ o = Raise KeyboardInterrupt) ∧
    ∀ t', inserted_into t' (events w') = inserted_into t' (events w)).
Proof.
  apply wp__update. intros o w' tail Ho _ Hev Hrec. split; [tauto|].
  intros t'. rewrite Hev, inserted_into_app. simpl.
  by rewrite (inserted_into_recovery _ _ Hrec), app_nil_r.
Qed.

Lemma sort_task_info_tracked (m : msg) (task_id try_id : value)
    (r : reconciliation) (l : task_lists) (reprocessable : list msg) evs :
  m !! "task_id" = Some task_id →
  m !! "try_id" = Some try_id →
  inserts_tracked r l.(task_info_insert_messages) l.(try_insert_messages) evs →
  let '(r', l', _) := sort_task_info task_id try_id m (r, l, reprocessable) in
  inserts_tracked r' l'.(task_info_insert_messages) l'.(try_insert_messages) evs.
Proof.
  intros Ht Hy (Ht1 & Ht2 & Hy1 & Hy2).
  assert (task_key m = task_id) as Htk by (unfold task_key, get; by rewrite Ht).
  assert (try_key m = task_try_id_of task_id try_id) as Hyk
    by (unfold try_key, get; by rewrite Ht, Hy).
  unfold sort_task_info.
  destruct (decide (task_id ∈ inserted_tasks r)) as [Hin|Hnin];
    destruct (decide (task_try_id_of task_id try_id ∈ inserted_tries r)) as [Hyin|Hynin];
    try destruct (deferred_resource_messages r !! task_try_id_of task_id try_id);
    simpl; unfold inserts_tracked; simpl.
  all: rewrite <- ?Htk, <- ?Hyk in *.
  all: try (destruct (fresh_key_joins task_key _ _ _ m Ht1 Ht2) as [??]; [done|]).
  all: try (destruct (fresh_key_joins try_key _ _ _ m Hy1 Hy2) as [??]; [done|]).
  all: repeat split; try done.
  all: try (by apply tracked_key_weaken).
Qed.

(** Sorting a priority batch keeps the inserts tracked; the messages of the
    workflow table in it add no insert for the task or the try table. *)
Lemma priority_loop_tracked (pms : list (MessageType * msg)) :
  ∀ (r : reconciliation) (l : task_lists) (reprocessable : list msg) (w : manager S),
  inserts_tracked r l.(task_info_insert_messages) l.(try_insert_messages) (events w) →
  wp (priority_loop (r, l, reprocessable) pms) w (fun o w' =>
    match o with
    | Ok (r', l', _) =>
        inserts_tracked r' l'.(task_info_insert_messages) l'.(try_insert_messages)
          (events w')
    | Raise _ => inserts_distinct (events w')
    end).
Proof.
  induction pms as [|[msg_type m] pms IH]; intros r l reprocessable w Hinv.
  - by apply wp_ret.
  - cbn [priority_loop]. apply wp_bind. unfold priority_step.
    destruct msg_type as [| |tag].
    + apply wp_bind, wp_getitem.
      * intros task_id Ht. apply wp_bind, wp_getitem.
        -- intros try_id Hy. apply wp_ret.
           pose proof (sort_task_info_tracked m task_id try_id r l reprocessable
                         (events w) Ht Hy Hinv) as Hinv'.
           destruct (sort_task_info task_id try_id m (r, l, reprocessable))
             as [[r' l'] reprocessable'].
           by apply IH.
        -- intros _. by eapply inserts_tracked_distinct.
      * intros _. by eapply inserts_tracked_distinct.
    + destruct (decide (is_Some (m !! "python_version"))).
      * apply wp_bind. eapply wp_mono; [apply wp__insert_inserted|].
        intros o w1 [Ho Hins]. simpl in Hins.
        assert (inserts_tracked r (task_info_insert_messages l) (try_insert_messages l)
                  (events w1)) as Hinv1.
        { unfold inserts_tracked. rewrite !Hins. simpl. by rewrite !app_nil_r. }
        destruct Ho as [-> | ->]; [|by eapply inserts_tracked_distinct].
        apply wp_bind. unfold wp at 1. simpl. apply wp_ret. by apply IH.
      * apply wp_bind. eapply wp_mono; [apply wp__update_inserted|].
        intros o w1 [Ho Hins].
        assert (inserts_tracked r (task_info_insert_messages l) (try_insert_messages l)
                  (events w1)) as Hinv1.
        { unfold inserts_tracked. by rewrite !Hins. }
        destruct Ho as [-> | ->]; [|by eapply inserts_tracked_distinct].
        apply wp_bind. unfold wp at 1. simpl. apply wp_ret. by apply IH.
    + apply wp_raise. by eapply inserts_tracked_distinct.
Qed.

Lemma wp_when_insert_inserted t messages (w : manager S) :
  wp (when_nonempty messages (_insert t messages)) w (fun o w' =>
    (o = Ok tt ∨ o = Raise KeyboardInterrupt) ∧
    ∀ t', inserted_into t' (events w')
          = inserted_into t' (events w) ++ (if decide (t = t') then messages else [])).
Proof.
  destruct messages as [|m messages]; [|apply wp__insert_inserted].
  apply wp_ret. split; [by left|]. intros t'. case_decide; by rewrite app_nil_r.
Qed.

Lemma wp_when_update_inserted t columns messages (w : manager S) :
  wp (when_nonempty messages (_update t columns messages)) w (fun o w' =>
    (o = Ok tt ∨ o = Raise KeyboardInterrupt) ∧
    ∀ t', inserted_into t' (events w') = inserted_into t' (events w)).
Proof.
  destruct messages as [|m messages]; [|apply wp__update_inserted].
  apply wp_ret. split; [by left|done].
Qed.

Lemma apply_task_lists_tracked (r : reconciliation) (l : task_lists) (w : manager S) :
  inserts_tracked r l.(task_info_insert_messages) l.(try_insert_messages) (events w) →
  wp (apply_task_lists l) w (fun o w' =>
    match o with
    | Ok _ => inserts_tracked r [] [] (events w')
    | Raise _ => inserts_distinct (events w')
    end).
Proof.
  intros Hinv. unfold apply_task_lists.
  apply wp_bind. eapply wp_mono; [apply wp__update_inserted|].
  intros o w1 [Ho Hins].
  assert (inserts_tracked r (task_info_insert_messages l) (try_insert_messages l)
            (events w1)) as Hinv1 by (unfold inserts_tracked; by rewrite !Hins).
  clear Hinv Hins. destruct Ho as [-> | ->]; [|by eapply inserts_tracked_distinct].
  apply wp_bind. eapply wp_mono; [apply wp_when_insert_inserted|].
  intros o w2 [Ho Hins].
  assert (inserts_tracked r [] (try_insert_messages l) (events w2)) as Hinv2.
  { unfold inserts_tracked in *. rewrite !Hins. simpl. by rewrite ?app_nil_r in *. }
  clear Hinv1 Hins. destruct Ho as [-> | ->]; [|by eapply inserts_tracked_distinct].
  apply wp_bind. eapply wp_mono; [apply wp_when_update_inserted|].
  intros o w3 [Ho Hins].
  assert (inserts_tracked r [] (try_insert_messages l) (events w3)) as Hinv3
    by (unfold inserts_tracked; by rewrite !Hins).
  clear Hinv2 Hins. destruct Ho as [-> | ->]; [|by eapply inserts_tracked_distinct].
  apply wp_bind. eapply wp_mono; [apply wp__insert_inserted|].
  intros o w4 [Ho Hins].
  assert (inserts_tracked r [] (try_insert_messages l) (events w4)) as Hinv4.
  { unfold inserts_tracked in *. rewrite !Hins. simpl. by rewrite ?app_nil_r in *. }
  clear Hinv3 Hins. destruct Ho as [-> | ->]; [|by eapply inserts_tracked_distinct].
  apply wp_bind. eapply wp_mono; [apply wp_when_insert_inserted|].
  intros o w5 [Ho Hins].
  assert (inserts_tracked r [] [] (events w5)) as Hinv5.
  { unfold inserts_tracked in *. rewrite !Hins. simpl. by rewrite ?app_nil_r in *. }
  clear Hinv4 Hins. destruct Ho as [-> | ->]; [|by eapply inserts_tracked_distinct].
  eapply wp_mono; [apply wp_when_update_inserted|].
  intros o w6 [Ho Hins].
  assert (inserts_tracked r [] [] (events w6)) as Hinv6
    by (unfold inserts_tracked; by rewrite !Hins).
  destruct Ho as [-> | ->]; [done|by eapply inserts_tracked_distinct].
Qed.

Lemma inserts_tracked_same (r r' : reconciliation) ti yi evs evs' :
  inserted_tasks r' = inserted_tasks r →
  inserted_tries r' = inserted_tries r →
  (∀ t, inserted_into t evs' = inserted_into t evs) →
  inserts_tracked r ti yi evs → inserts_tracked r' ti yi evs'.
Proof. unfold inserts_tracked. intros -> -> Hins. by rewrite !Hins. Qed.

Lemma priority_phase_tracked (r : reconciliation) pms (w : manager S) :
  inserts_tracked r [] [] (events w) →
  wp (priority_phase r pms) w (fun o w' =>
    match o with
    | Ok (r', _) => inserts_tracked r' [] [] (events w')
    | Raise _ => inserts_distinct (events w')
    end).
Proof.
  intros Hinv. unfold priority_phase. destruct pms as [|pm pms]; [by apply wp_ret|].
  apply wp_bind. eapply wp_mono; [by apply priority_loop_tracked|].
  intros [[[r' l'] reprocessable']|e] w1 Hinv1; [|done].
  apply wp_bind. eapply wp_mono; [by apply apply_task_lists_tracked|].
  intros [[]|e] w2 Hinv2; [|done]. by apply wp_ret.
Qed.

Lemma resource_step_tracked (r : reconciliation) (reprocessable : list msg) (m : msg)
    (w : manager S) :
  wp (resource_step (r, reprocessable) m) w (fun o w' =>
    (∀ t, inserted_into t (events w') = inserted_into t (events w)) ∧
    match o with
    | Ok (r', _) =>
        inserted_tasks r' = inserted_tasks r ∧ inserted_tries r' = inserted_tries r
    | Raise _ => True
    end).
Proof.
  unfold resource_step.
  apply wp_bind, wp_getitem; [intros task_id _|done].
  apply wp_bind, wp_getitem; [intros try_id _|done].
  apply wp_bind, wp_getitem; [intros first_msg _|done].
  destruct (truthy first_msg); [|by apply wp_ret].
  apply wp_bind, wp_getitem; [intros timestamp _|done].
  destruct (decide (task_try_id_of task_id try_id ∈ inserted_tries r));
    [by apply wp_ret|].
  apply wp_bind.
  destruct (decide (is_Some (deferred_resource_messages r !! task_try_id_of task_id try_id))).
  - apply wp_emit, wp_ret. split; [|done]. intros t. simpl.
    rewrite inserted_into_app. simpl. by rewrite app_nil_r.
  - by apply wp_ret, wp_ret.
Qed.

Lemma resource_loop_tracked (rms : list msg) :
  ∀ (r : reconciliation) (reprocessable : list msg) (w : manager S),
  wp (resource_loop (r, reprocessable) rms) w (fun o w' =>
    (∀ t, inserted_into t (events w') = inserted_into t (events w)) ∧
    match o with
    | Ok (r', _) =>
        inserted_tasks r' = inserted_tasks r ∧ inserted_tries r' = inserted_tries r
    | Raise _ => True
    end).
Proof.
  induction rms as [|m rms IH]; intros r reprocessable w; [by apply wp_ret|].
  cbn [resource_loop]. apply wp_bind.
  eapply wp_mono; [apply resource_step_tracked|].
  intros [[r1 rep1]|e] w1 [Hins Hsets]; [|done].
  eapply wp_mono; [apply IH|].
  intros [[r2 rep2]|e] w2 [Hins2 Hsets2].
  - split; [intros t; by rewrite Hins2|]. destruct Hsets, Hsets2. split; congruence.
  - split; [intros t; by rewrite Hins2|done].
Qed.

(** One iteration keeps the inserts tracked. *)
Lemma iteration_tracked (r : reconciliation) (b : batch) (w : manager S) :
  inserts_tracked r [] [] (events w) →
  wp (iteration r b) w (fun o w' =>
    match o with
    | Ok r' => inserts_tracked r' [] [] (events w')
    | Raise _ => inserts_distinct (events w')
    end).
Proof.
  intros Hinv. unfold iteration.
  apply wp_bind. eapply wp_mono; [by apply priority_phase_tracked|].
  intros [[r1 rep1]|e] w1 Hinv1; [|done].
  apply wp_bind. unfold node_phase.
  eapply wp_mono; [apply wp_when_insert_inserted|].
  intros o w2 [Ho Hins].
  assert (inserts_tracked r1 [] [] (events w2)) as Hinv2.
  { unfold inserts_tracked in *. rewrite !Hins. simpl. by rewrite ?app_nil_r in *. }
  clear Hinv1 Hins. destruct Ho as [-> | ->]; [|by eapply inserts_tracked_distinct].
  apply wp_bind. unfold resource_phase.
  destruct (resource_messages b) as [|m rms] eqn:Hrms.
  - apply wp_ret. unfold reprocess_phase. apply wp_bind.
    destruct rep1 as [|m reps]; [by apply wp_ret, wp_ret|]. simpl.
    apply wp_bind. eapply wp_mono; [apply wp__insert_inserted|].
    intros o w3 [Ho Hins].
    assert (inserts_tracked r1 [] [] (events w3)) as Hinv3.
    { unfold inserts_tracked in *. rewrite !Hins. simpl. by rewrite ?app_nil_r in *. }
    clear Hinv2 Hins. destruct Ho as [-> | ->]; [|by eapply inserts_tracked_distinct].
    eapply wp_mono; [apply wp__update_inserted|].
    intros o w4 [Ho Hins].
    assert (inserts_tracked r1 [] [] (events w4)) as Hinv4
      by (unfold inserts_tracked; by rewrite !Hins).
    destruct Ho as [-> | ->]; [by apply wp_ret|by eapply inserts_tracked_distinct].
  - apply wp_bind. eapply wp_mono; [apply wp__insert_inserted|].
    intros o w3 [Ho Hins].
    assert (inserts_tracked r1 [] [] (events w3)) as Hinv3.
    { unfold inserts_tracked in *. rewrite !Hins. simpl. by rewrite ?app_nil_r in *. }
    clear Hinv2 Hins. destruct Ho as [-> | ->]; [|by eapply inserts_tracked_distinct].
    eapply wp_mono; [apply resource_loop_tracked|].
    intros [[r2 rep2]|e] w4 [Hins Hsets].
    + destruct Hsets as [Hts Hys].
      assert (inserts_tracked r2 [] [] (events w4)) as Hinv4
        by (by eapply inserts_tracked_same).
      clear Hinv3 Hins. unfold reprocess_phase. apply wp_bind.
      destruct rep2 as [|m' reps]; [by apply wp_ret, wp_ret|]. simpl.
      apply wp_bind. eapply wp_mono; [apply wp__insert_inserted|].
      intros o w5 [Ho Hins].
      assert (inserts_tracked r2 [] [] (events w5)) as Hinv5.
      { unfold inserts_tracked in *. rewrite !Hins. simpl. by rewrite ?app_nil_r in *. }
      clear Hinv4 Hins. destruct Ho as [-> | ->]; [|by eapply inserts_tracked_distinct].
      eapply wp_mono; [apply wp__update_inserted|].
      intros o w6 [Ho Hins].
      assert (inserts_tracked r2 [] [] (events w6)) as Hinv6
        by (unfold inserts_tracked; by rewrite !Hins).
      destruct Ho as [-> | ->]; [by apply wp_ret|by eapply inserts_tracked_distinct].
    + eapply inserts_tracked_distinct.
      eapply (inserts_tracked_same r1 r1); [done|done|exact Hins|exact Hinv3].
Qed.

Lemma run_trace_tracked (trace : list batch) : ∀ (r : reconciliation) (w : manager S),
  inserts_tracked r [] [] (events w) →
  wp (run_trace r trace) w (fun _ w' => inserts_distinct (events w')).
Proof.
  induction trace as [|b trace IH]; intros r w Hinv.
  - apply wp_ret. by eapply inserts_tracked_distinct.
  - cbn [run_trace]. apply wp_bind.
    eapply wp_mono; [by apply iteration_tracked|].
    intros [r'|e] w1 Hinv1; [by apply IH|done].
Qed.

End Tracking.

Lemma NoDup_task_key_pk (l : list msg) :
  NoDup (task_key <$> l) → NoDup (pk_of TASK <$> l).
Proof.
  intros Hnd. apply (NoDup_fmap_1 (fun p : list value => default VNone (head p))).
  by rewrite <- list_fmap_compose.
Qed.

Lemma NoDup_try_key_pk (l : list msg) :
  NoDup (try_key <$> l) → NoDup (pk_of TRY <$> l).
Proof.
  intros Hnd.
  apply (NoDup_fmap_1 (fun p : list value =>
           task_try_id_of (default VNone (p !! 1%nat)) (default VNone (p !! 0%nat)))).
  by rewrite <- list_fmap_compose.
Qed.

(** C3.  Whatever the messages and however they are batched, and whatever
    the store answers, the coordinator never asks the store to insert two
    rows with the same (task_id, run_id) into the task table, nor two rows
    with the same (try_id, task_id, run_id) into the try table: a key
    already in [inserted_tasks] or [inserted_tries] goes to the update
    lists. *)
Theorem inserts_never_repeat_a_key
    (S : Type) `{Session S} (s : S) (interval : ext Z) (threshold : ext nat)
    (trace : list batch) :
  let w' := (run_trace initial_reconciliation trace
               (new_manager s interval threshold)).2 in
  NoDup (pk_of TASK <$> inserted_into TASK (events w')) ∧
  NoDup (pk_of TRY <$> inserted_into TRY (events w')).
Proof.
  intros w'.
  assert (inserts_distinct (events w')) as [Htask Htry].
  { apply (run_trace_tracked trace initial_reconciliation
             (new_manager s interval threshold)).
    unfold inserts_tracked. simpl. repeat split; try apply NoDup_nil_2;
      intros m Hm; by apply elem_of_nil in Hm. }
  split; [by apply NoDup_task_key_pk | by apply NoDup_try_key_pk].
Qed.

(** ** Rows of the relational store *)

Lemma rows_set_rows_eq t l d : rows t (set_rows t l d) = l.
Proof. by destruct t. Qed.

Lemma rows_set_rows_ne t t' l d : t ≠ t' → rows t' (set_rows t l d) = rows t' d.
Proof. by destruct t, t'. Qed.

Lemma set_rows_rows t d : set_rows t (rows t d) d = d.
Proof. by destruct t, d. Qed.

Lemma store_eta (s : store) : Store (committed s) (working s) (stale_is_error s) = s.
Proof. by destruct s. Qed.

Lemma clean_eta (s : store) : clean s → Store (committed s) (committed s) (stale_is_error s) = s.
Proof. unfold clean. intros Hc. rewrite <- Hc at 2. apply store_eta. Qed.

Lemma get_row_of t (m : msg) c : c ∈ keys t → get (row_of t m) c = get m c.
Proof. intros Hc. unfold row_of. rewrite get_generate_mapping. by rewrite decide_True. Qed.

Lemma row_of_generate_mapping t (m : msg) :
  row_of t (generate_mapping (keys t) m) = generate_mapping (keys t) m.
Proof.
  apply map_eq. intros c. unfold row_of. rewrite !generate_mapping_lookup.
  case_decide; [|done]. by rewrite get_generate_mapping, decide_True.
Qed.

Lemma primary_key_keys t c : c ∈ primary_key t → c ∈ keys t.
Proof.
  destruct t; intros Hc.
  all: repeat (apply elem_of_cons in Hc as [->|Hc];
               [by apply (bool_decide_unpack _); vm_compute|]).
  all: by apply elem_of_nil in Hc.
Qed.

Lemma pk_of_row_of t (m : msg) : pk_of t (row_of t m) = pk_of t m.
Proof.
  unfold pk_of. apply list_fmap_ext. intros i c Hc.
  apply get_row_of, primary_key_keys. by eapply list_elem_of_lookup_2.
Qed.

Lemma pk_of_generate_mapping t (m : msg) : pk_of t (generate_mapping (keys t) m) = pk_of t m.
Proof. apply (pk_of_row_of t m). Qed.

Lemma not_null_ok_spec t (row : msg) :
  not_null_ok t row = true ↔
  ∀ c, Column c false ∈ columns_of t → get row c ≠ VNone.
Proof.
  unfold not_null_ok. rewrite forallb_forall. split.
  - intros Hall c Hc. apply list_elem_of_In in Hc. specialize (Hall _ Hc). simpl in Hall.
    apply negb_true_iff, bool_decide_eq_false in Hall. done.
  - intros Hall [c [|]] Hc; [done|]. simpl. apply negb_true_iff, bool_decide_eq_false.
    apply Hall. by apply list_elem_of_In.
Qed.

(** A single row that meets the constraints goes in. *)
Lemma store_insert_one (t : table) (mapping : msg) (d : tables) :
  autoincrement t = None →
  not_null_ok t (row_of t mapping) = true →
  pk_of t mapping ∉ pk_of t <$> rows t d →
  store_insert t [mapping] d
  = (Ok tt, set_rows t (rows t d ++ [row_of t mapping]) d).
Proof.
  intros Hauto Hnn Hfresh. simpl. unfold fill_autoincrement. rewrite Hauto, Hnn. simpl.
  rewrite pk_of_row_of. by rewrite bool_decide_eq_false_2.
Qed.

Lemma insert_effect_one (t : table) (m : msg) (s : store) :
  clean s →
  autoincrement t = None →
  not_null_ok t (row_of t m) = true →
  pk_of t m ∉ pk_of t <$> rows t (committed s) →
  insert_effect t [m] s
  = (Store (set_rows t (rows t (committed s) ++ [row_of t m]) (committed s))
       (set_rows t (rows t (committed s) ++ [row_of t m]) (committed s))
       (stale_is_error s), []).
Proof.
  intros Hclean Hauto Hnn Hfresh. unfold insert_effect. rewrite Hclean.
  change (_generate_mappings t None [m]) with [generate_mapping (keys t) m].
  rewrite store_insert_one.
  - by rewrite row_of_generate_mapping.
  - done.
  - by rewrite row_of_generate_mapping.
  - by rewrite pk_of_generate_mapping.
Qed.

(** An update that finds no row leaves the store as it was, under either
    policy. *)
Lemma update_effect_no_match (t : table) (columns : list string) (m : msg) (s : store) :
  clean s →
  pk_of t (generate_mapping columns m) ∉ pk_of t <$> rows t (committed s) →
  (update_effect t columns [m] s).1 = s.
Proof.
  intros Hclean Hfresh. unfold update_effect. rewrite Hclean.
  change (_generate_mappings t (Some columns) [m]) with [generate_mapping columns m].
  simpl. destruct (bool_decide (VNone ∈ pk_of t (generate_mapping columns m))).
  { by apply clean_eta. }
  rewrite bool_decide_eq_false_2 by done.
  destruct (stale_is_error s) eqn:Hstale; simpl; rewrite <- Hstale; by apply clean_eta.
Qed.

Lemma update_effect_one (t : table) (columns : list string) (m : msg) (s : store) :
  clean s →
  VNone ∉ pk_of t (generate_mapping columns m) →
  pk_of t (generate_mapping columns m) ∈ pk_of t <$> rows t (committed s) →
  set_ok t (generate_mapping columns m) = true →
  update_effect t columns [m] s
  = (let l := (fun row => if decide (pk_of t row = pk_of t (generate_mapping columns m))
                          then apply_update t (generate_mapping columns m) row else row)
                <$> rows t (committed s) in
     (Store (set_rows t l (committed s)) (set_rows t l (committed s)) (stale_is_error s),
      [])).
Proof.
  intros Hclean Hnone Hin Hok. unfold update_effect. rewrite Hclean.
  change (_generate_mappings t (Some columns) [m]) with [generate_mapping columns m].
  by rewrite store_update_one.
Qed.

(** ** Running the manager on the relational store *)

Lemma wp__insert_db t messages (w : manager store) Q :
  (∀ w', db w' = (insert_effect t messages (db w)).1 → Q (Ok tt) w') →
  wp (_insert t messages) w Q.
Proof. intros HQ. unfold wp. rewrite _insert_store. simpl. by apply HQ. Qed.

Lemma wp__update_db t columns messages (w : manager store) Q :
  (∀ w', db w' = (update_effect t columns messages (db w)).1 → Q (Ok tt) w') →
  wp (_update t columns messages) w Q.
Proof. intros HQ. unfold wp. rewrite _update_store. simpl. by apply HQ. Qed.

(** Inserting one row that meets the constraints. *)
Lemma wp__insert_one t (m : msg) (w : manager store) d stale Q :
  db w = Store d d stale →
  autoincrement t = None →
  not_null_ok t (row_of t m) = true →
  pk_of t m ∉ pk_of t <$> rows t d →
  (∀ w', db w' = Store (set_rows t (rows t d ++ [row_of t m]) d)
                   (set_rows t (rows t d ++ [row_of t m]) d) stale →
         Q (Ok tt) w') →
  wp (_insert t [m]) w Q.
Proof.
  intros Hdb Hauto Hnn Hfresh HQ. apply wp__insert_db. intros w' Hw'. apply HQ.
  rewrite Hw', Hdb. by rewrite insert_effect_one.
Qed.

(** An update that matches no row. *)
Lemma wp__update_no_match t columns (m : msg) (w : manager store) d stale Q :
  db w = Store d d stale →
  pk_of t (generate_mapping columns m) ∉ pk_of t <$> rows t d →
  (∀ w', db w' = Store d d stale → Q (Ok tt) w') →
  wp (_update t columns [m]) w Q.
Proof.
  intros Hdb Hfresh HQ. apply wp__update_db. intros w' Hw'. apply HQ.
  rewrite Hw', Hdb. by rewrite update_effect_no_match.
Qed.

(** An update of the one row it matches. *)
Lemma wp__update_one t columns (m : msg) (w : manager store) d stale Q :
  db w = Store d d stale →
  VNone ∉ pk_of t (generate_mapping columns m) →
  pk_of t (generate_mapping columns m) ∈ pk_of t <$> rows t d →
  set_ok t (generate_mapping columns m) = true →
  (∀ w', let l := (fun row => if decide (pk_of t row = pk_of t (generate_mapping columns m))
                              then apply_update t (generate_mapping columns m) row
                              else row) <$> rows t d in
         db w' = Store (set_rows t l d) (set_rows t l d) stale → Q (Ok tt) w') →
  wp (_update t columns [m]) w Q.
Proof.
  intros Hdb Hnone Hin Hok HQ. apply wp__update_db. intros w' Hw'. apply HQ.
  rewrite Hw', Hdb. by rewrite update_effect_one.
Qed.

Lemma sort_task_info_new (task_id try_id : value) (m : msg) (r : reconciliation)
    (l : task_lists) (reprocessable : list msg) :
  task_id ∉ inserted_tasks r →
  task_try_id_of task_id try_id ∉ inserted_tries r →
  sort_task_info task_id try_id m (r, l, reprocessable)
  = (Reconciliation ({[task_id]} ∪ inserted_tasks r)
       ({[task_try_id_of task_id try_id]} ∪ inserted_tries r)
       (delete (task_try_id_of task_id try_id) (deferred_resource_messages r)),
     TaskLists (task_info_update_messages l) (task_info_insert_messages l ++ [m])
       (task_info_all_messages l ++ [m]) (try_update_messages l)
       (try_insert_messages l ++ [m]) (try_all_messages l ++ [m]),
     reprocessable ++
       match deferred_resource_messages r !! task_try_id_of task_id try_id with
       | Some left_message => [left_message]
       | None => []
       end).
Proof.
  intros Ht Hy. unfold sort_task_info. rewrite !decide_False by done.
  destruct (deferred_resource_messages r !! task_try_id_of task_id try_id) eqn:Hd.
  - done.
  - by rewrite app_nil_r, delete_id.
Qed.
